(** * Portfolio 3D: the scene manager of [src/App.jsx]

    A shallow embedding of the [SceneManager] component (scene build, pointer
    picking, camera transitions, frame loop) and of the navigation state held
    by [Portfolio3D], followed by the properties of the specification.

    Numbers.  A JavaScript number is modelled as an exact rational in lowest
    terms ([Qc]): a literal denotes its decimal value and [+], [-], [*], [/]
    are exact, so the rounding of binary64 arithmetic is not modelled.
    [Math.sin] and [Math.cos] are parameters of the development.

    Rounding would matter in one place: fifty additions of 0.02 give exactly
    1 here and 1.0000000000000004 in binary64, so the step a transition takes
    here at progress 1 is not taken by an engine that computes in binary64,
    whose last step is the one at progress 0.98.

    Objects.  Meshes live in the array [navigationObjects]; a reference to a
    mesh is its index in that array, so [objectsRef.current.core] and
    [navigationObjects[0]] denote the same mutable object.

    Refs.  The handlers and callbacks test that [cameraRef.current],
    [sceneRef.current] and the fields of [objectsRef.current] are set
    (lines 288, 313, 339, 347, 353, 359, 369, 383, 399).  The effects that set
    them (lines 42-88 and 104-276) run at the mount before any handler or
    callback, so the tests pass in every state of the model and are left
    out. *)

From Stdlib Require Import ZArith QArith Qcanon Qround Lqa Lia List String Sorted.
From stdpp Require Import base option list strings gmap numbers.
Import ListNotations.

Open Scope string_scope.
Open Scope list_scope.
Open Scope Q_scope.
Open Scope Qc_scope.

(** A decimal literal is read as a rational and put in lowest terms. *)
#[warning="-ambiguous-paths"] Coercion Q2Qc : Q >-> Qc.

(** ** The parts of three.js the component calls *)

Module THREE.

Record Vector2 := mkVector2 { x2 : Qc; y2 : Qc }.

Record Vector3 := mkVector3 { vx : Qc; vy : Qc; vz : Qc }.

(** Rotation of an [Object3D]: Euler angles, in radians. *)
Record Euler := mkEuler { ex : Qc; ey : Qc; ez : Qc }.

(** [Vector3.lerp(v, alpha)]: [this.x += (v.x - this.x) * alpha], and the
    same on [y] and [z]. *)
Definition lerp (this v : Vector3) (alpha : Qc) : Vector3 :=
  mkVector3 (vx this + (vx v - vx this) * alpha)
            (vy this + (vy v - vy this) * alpha)
            (vz this + (vz v - vz this) * alpha).

(** [Vector3.lerpVectors(v1, v2, alpha)]:
    [this.x = v1.x + (v2.x - v1.x) * alpha], and the same on [y] and [z]. *)
Definition lerpVectors (v1 v2 : Vector3) (alpha : Qc) : Vector3 :=
  mkVector3 (vx v1 + (vx v2 - vx v1) * alpha)
            (vy v1 + (vy v2 - vy v1) * alpha)
            (vz v1 + (vz v2 - vz v1) * alpha).

#[global] Instance Vector2_eq_dec : EqDecision Vector2.
Proof. solve_decision. Defined.

#[global] Instance Vector3_eq_dec : EqDecision Vector3.
Proof. solve_decision. Defined.

#[global] Instance Euler_eq_dec : EqDecision Euler.
Proof. solve_decision. Defined.

End THREE.
Import THREE.

(** ** Property lookup on an object literal *)

(** The properties every object literal inherits from [Object.prototype]
    (ECMAScript, sections 20.1.3 and B.2.2). *)
Definition Object_prototype : list string :=
  [ "constructor"; "hasOwnProperty"; "isPrototypeOf"; "propertyIsEnumerable";
    "toLocaleString"; "toString"; "valueOf"; "__proto__";
    "__defineGetter__"; "__defineSetter__"; "__lookupGetter__";
    "__lookupSetter__" ].

(** The exceptions the modelled code can raise. *)
Inductive JSError : Type :=
| TypeError.

#[global] Instance JSError_eq_dec : EqDecision JSError.
Proof. solve_decision. Defined.

(** Abrupt and normal completion of a piece of code. *)
Inductive Completion (A : Type) : Type :=
| Normal (a : A)
| Throw (error : JSError).
Arguments Normal {A} a.
Arguments Throw {A} error.

#[global] Instance Completion_eq_dec {A} `{EqDecision A} :
  EqDecision (Completion A).
Proof. solve_decision. Defined.

#[global] Instance Completion_ret : MRet Completion := fun A a => Normal a.

#[global] Instance Completion_bind : MBind Completion := fun A B k c =>
  match c with
  | Normal a => k a
  | Throw e => Throw e
  end.

(** ** Constants and configuration (lines 8-15) *)

(** A camera pose.  The source stores [position] and [target] as arrays of
    three numbers and spreads them into [Vector3] and [lookAt]. *)
Record CameraConfig := mkCameraConfig {
  cfg_position : Vector3;
  cfg_target : Vector3
}.

#[global] Instance CameraConfig_eq_dec : EqDecision CameraConfig.
Proof. solve_decision. Defined.

Definition home_pose : CameraConfig :=
  mkCameraConfig (mkVector3 0 0 12) (mkVector3 0 0 0).
Definition about_pose : CameraConfig :=
  mkCameraConfig (mkVector3 (-8) 3 8) (mkVector3 (-2) 0 0).
Definition skills_pose : CameraConfig :=
  mkCameraConfig (mkVector3 8 3 8) (mkVector3 2 0 0).
Definition experience_pose : CameraConfig :=
  mkCameraConfig (mkVector3 0 (-6) 10) (mkVector3 0 (-2) 0).
Definition projects_pose : CameraConfig :=
  mkCameraConfig (mkVector3 0 8 15) (mkVector3 0 2 0).
Definition contact_pose : CameraConfig :=
  mkCameraConfig (mkVector3 0 0 20) (mkVector3 0 0 0).

(** The own properties of [CAMERA_POSITIONS]. *)
Definition CAMERA_POSITIONS : gmap string CameraConfig :=
  <["home" := home_pose]> (
  <["about" := about_pose]> (
  <["skills" := skills_pose]> (
  <["experience" := experience_pose]> (
  <["projects" := projects_pose]> (
  <["contact" := contact_pose]> ∅))))).

(** What [CAMERA_POSITIONS[key]] can evaluate to. *)
Inductive JSValue : Type :=
| JSUndefined
| JSConfig (c : CameraConfig)
| JSInherited (name : string).

(** [CAMERA_POSITIONS[key]]: an own property when there is one, else the
    property of that name on [Object.prototype], else [undefined]. *)
Definition get_CAMERA_POSITIONS (key : string) : JSValue :=
  match CAMERA_POSITIONS !! key with
  | Some c => JSConfig c
  | None =>
      if bool_decide (key ∈ Object_prototype) then JSInherited key
      else JSUndefined
  end.

(** Truthiness: [undefined] is falsy, objects and functions are truthy. *)
Definition truthy (v : JSValue) : bool :=
  match v with
  | JSUndefined => false
  | JSConfig _ | JSInherited _ => true
  end.

(** [a || b] *)
Definition js_or (a b : JSValue) : JSValue := if truthy a then a else b.

(** [CAMERA_POSITIONS[currentSection] || CAMERA_POSITIONS.home] (line 316) *)
Definition resolve_targetConfig (currentSection : string) : JSValue :=
  js_or (get_CAMERA_POSITIONS currentSection) (get_CAMERA_POSITIONS "home").

(** ** Scene graph (lines 187-276) *)

Inductive Geometry : Type :=
| IcosahedronGeometry (radius : Qc) (detail : nat)
| BoxGeometry (width height depth : Qc)
| SphereGeometry (radius : Qc) (widthSegments heightSegments : nat)
| RingGeometry (innerRadius outerRadius : Qc) (thetaSegments : nat).

(** An entry of [experienceData]. *)
Record ExperienceEntry := mkExperienceEntry {
  exp_pos : Vector3;
  exp_year : string;
  exp_role : string
}.

(** [userData] of a navigable mesh: [{ section, type, data }]. *)
Record UserData := mkUserData {
  section : string;
  type : string;
  data : option ExperienceEntry
}.

Record Mesh := mkMesh {
  geometry : Geometry;
  position : Vector3;
  rotation : Euler;
  scale : Vector3;
  userData : UserData
}.

#[global] Instance Geometry_eq_dec : EqDecision Geometry.
Proof. solve_decision. Defined.

#[global] Instance ExperienceEntry_eq_dec : EqDecision ExperienceEntry.
Proof. solve_decision. Defined.

#[global] Instance UserData_eq_dec : EqDecision UserData.
Proof. solve_decision. Defined.

#[global] Instance Mesh_eq_dec : EqDecision Mesh.
Proof. solve_decision. Defined.

Definition set_rotation (m : Mesh) (r : Euler) : Mesh :=
  mkMesh (geometry m) (position m) r (scale m) (userData m).

Definition set_scale (m : Mesh) (s : Vector3) : Mesh :=
  mkMesh (geometry m) (position m) (rotation m) s (userData m).

(** [Math.PI], the binary64 number nearest to pi. *)
Definition Math_PI : Qc := Q2Qc (884279719003555 # 281474976710656).

(** A freshly constructed mesh: at the origin, unrotated, at scale 1. *)
Definition new_Mesh (g : Geometry) (u : UserData) : Mesh :=
  mkMesh g (mkVector3 0 0 0) (mkEuler 0 0 0) (mkVector3 1 1 1) u.

Definition at_position (m : Mesh) (p : Vector3) : Mesh :=
  mkMesh (geometry m) p (rotation m) (scale m) (userData m).

Definition core_mesh : Mesh :=
  new_Mesh (IcosahedronGeometry 1.5 2) (mkUserData "about" "core" None).

Definition skillsPositions : list Vector3 :=
  [ mkVector3 (-5) 2 0; mkVector3 5 2 0; mkVector3 0 4 (-3); mkVector3 0 (-2) 3 ].

Definition skillsLabels : list string :=
  [ "embedded"; "ai"; "software"; "hardware" ].

(** [skillsLabels[index]]; out of range the source would read [undefined],
    which no index of [skillsPositions] reaches. *)
Definition skill_mesh (index : nat) (pos : Vector3) : Mesh :=
  at_position
    (new_Mesh (BoxGeometry 0.8 0.8 0.8)
              (mkUserData "skills" (default "undefined" (skillsLabels !! index))
                          None))
    pos.

Definition experienceData : list ExperienceEntry :=
  [ mkExperienceEntry (mkVector3 (-10) 1 0) "2024" "Firmware Engineer @ Enedis";
    mkExperienceEntry (mkVector3 (-8) (-1) 0) "2023" "AI Engineer @ OCP Group";
    mkExperienceEntry (mkVector3 (-6) 0.5 0) "2021-2025" "MSc @ Grenoble INP" ].

Definition node_mesh (exp : ExperienceEntry) : Mesh :=
  at_position
    (new_Mesh (SphereGeometry 0.3 16 16)
              (mkUserData "experience" "node" (Some exp)))
    (exp_pos exp).

Definition projectsRing : Mesh :=
  set_rotation
    (at_position (new_Mesh (RingGeometry 2 3 8)
                           (mkUserData "projects" "gallery" None))
                 (mkVector3 0 8 0))
    (mkEuler (Math_PI / 2) 0 0).

(** The array [navigationObjects] in the order of its [push] calls.  The
    timeline cylinder is added to the scene but not to this array. *)
Definition build_navigationObjects : list Mesh :=
  [core_mesh] ++ imap skill_mesh skillsPositions
              ++ map node_mesh experienceData
              ++ [projectsRing].

(** [objectsRef.current.core]: a reference to the first mesh pushed. *)
Definition core : nat := 0%nat.

(** ** Overlay panels (lines 1339-1356) *)

Inductive Panel : Type :=
| HeroSection | AboutSection | SkillsMatrix
| ExperienceTimeline | ProjectsGallery | ContactSection.

#[global] Instance Panel_eq_dec : EqDecision Panel.
Proof. solve_decision. Defined.

Definition renderSection (currentSection : string) : Panel :=
  if String.eqb currentSection "home" then HeroSection
  else if String.eqb currentSection "about" then AboutSection
  else if String.eqb currentSection "skills" then SkillsMatrix
  else if String.eqb currentSection "experience" then ExperienceTimeline
  else if String.eqb currentSection "projects" then ProjectsGallery
  else if String.eqb currentSection "contact" then ContactSection
  else HeroSection.

(** The [id]s of [navItems] in [NavigationDock] (lines 417-424). *)
Definition navItems : list string :=
  [ "home"; "about"; "skills"; "experience"; "projects"; "contact" ].

(** ** The state of the page *)

(** The camera: its position, the point it was last turned to with [lookAt]
    ([None] before the first call) and its aspect ratio. *)
Record Camera := mkCamera {
  cam_position : Vector3;
  cam_lookAt : option Vector3;
  cam_aspect : Qc
}.

(** The closure of one run of the camera effect (lines 315-322). *)
Record Transition := mkTransition {
  targetConfig : CameraConfig;
  startPosition : Vector3;
  targetPosition : Vector3;
  progress : Qc
}.

(** A callback registered with [requestAnimationFrame]. *)
Inductive Callback : Type :=
| CbAnimateCamera (t : Transition)
| CbAnimate.

Record World := mkWorld {
  currentSection : string;            (* useState of Portfolio3D *)
  mountedPanels : list Panel;         (* results of renderSection, newest first *)
  camera : Camera;                    (* cameraRef.current *)
  navigationObjects : list Mesh;      (* objectsRef.current.navigationObjects *)
  particles : Euler;                  (* objectsRef.current.particles.rotation *)
  keyLight : Vector3;                 (* lights.keyLight.position *)
  rimLight : Qc;                       (* lights.rimLight.intensity *)
  mouse : Vector2;                    (* mouseRef.current *)
  frameCallbacks : list Callback;     (* pending requestAnimationFrame callbacks *)
  rendered : list Camera              (* camera of each render call, newest first *)
}.

#[global] Instance Camera_eq_dec : EqDecision Camera.
Proof. solve_decision. Defined.

#[global] Instance Transition_eq_dec : EqDecision Transition.
Proof. solve_decision. Defined.

#[global] Instance Callback_eq_dec : EqDecision Callback.
Proof. solve_decision. Defined.

#[global] Instance World_eq_dec : EqDecision World.
Proof. solve_decision. Defined.

Definition set_currentSection (w : World) (s : string) : World :=
  mkWorld s (mountedPanels w) (camera w) (navigationObjects w) (particles w)
          (keyLight w) (rimLight w) (mouse w) (frameCallbacks w) (rendered w).

Definition set_mountedPanels (w : World) (p : list Panel) : World :=
  mkWorld (currentSection w) p (camera w) (navigationObjects w) (particles w)
          (keyLight w) (rimLight w) (mouse w) (frameCallbacks w) (rendered w).

Definition set_camera (w : World) (c : Camera) : World :=
  mkWorld (currentSection w) (mountedPanels w) c (navigationObjects w)
          (particles w) (keyLight w) (rimLight w) (mouse w) (frameCallbacks w)
          (rendered w).

Definition set_navigationObjects (w : World) (o : list Mesh) : World :=
  mkWorld (currentSection w) (mountedPanels w) (camera w) o (particles w)
          (keyLight w) (rimLight w) (mouse w) (frameCallbacks w) (rendered w).

Definition set_particles (w : World) (r : Euler) : World :=
  mkWorld (currentSection w) (mountedPanels w) (camera w) (navigationObjects w)
          r (keyLight w) (rimLight w) (mouse w) (frameCallbacks w) (rendered w).

Definition set_keyLight (w : World) (p : Vector3) : World :=
  mkWorld (currentSection w) (mountedPanels w) (camera w) (navigationObjects w)
          (particles w) p (rimLight w) (mouse w) (frameCallbacks w) (rendered w).

Definition set_rimLight (w : World) (i : Qc) : World :=
  mkWorld (currentSection w) (mountedPanels w) (camera w) (navigationObjects w)
          (particles w) (keyLight w) i (mouse w) (frameCallbacks w) (rendered w).

Definition set_mouse (w : World) (m : Vector2) : World :=
  mkWorld (currentSection w) (mountedPanels w) (camera w) (navigationObjects w)
          (particles w) (keyLight w) (rimLight w) m (frameCallbacks w)
          (rendered w).

Definition set_frameCallbacks (w : World) (q : list Callback) : World :=
  mkWorld (currentSection w) (mountedPanels w) (camera w) (navigationObjects w)
          (particles w) (keyLight w) (rimLight w) (mouse w) q (rendered w).

(** [requestAnimationFrame(cb)]: callbacks run in the order of their
    registration. *)
Definition requestAnimationFrame (cb : Callback) (w : World) : World :=
  set_frameCallbacks w (frameCallbacks w ++ [cb]).

(** [renderer.render(scene, camera)] *)
Definition render (w : World) : World :=
  mkWorld (currentSection w) (mountedPanels w) (camera w) (navigationObjects w)
          (particles w) (keyLight w) (rimLight w) (mouse w) (frameCallbacks w)
          (camera w :: rendered w).

(** ** Ray casting *)

(** [Array.prototype.sort(compare)]: a stable sort, ascending for [compare]. *)
Fixpoint sort_insert {A : Type} (compare : A -> A -> Qc) (a : A) (l : list A)
  : list A :=
  match l with
  | [] => [a]
  | b :: l' =>
      if bool_decide (compare a b ≤ 0) then a :: b :: l'
      else b :: sort_insert compare a l'
  end.

Definition Array_sort {A : Type} (compare : A -> A -> Qc) (l : list A)
  : list A :=
  foldr (sort_insert compare) [] l.

(** An entry of the array [Raycaster.intersectObjects] returns: the distance
    from the ray origin to the hit, and the mesh that was hit. *)
Record Intersection := mkIntersection {
  distance : Qc;
  object : nat
}.

#[global] Instance Intersection_eq_dec : EqDecision Intersection.
Proof. solve_decision. Defined.

(** [ascSort] of three.js: [a.distance - b.distance]. *)
Definition ascSort (a b : Intersection) : Qc := distance a - distance b.

Section SceneManager.

(** [Math.sin] and [Math.cos]. *)
Variable Math_sin Math_cos : Qc -> Qc.

(** [Mesh.raycast] after [raycaster.setFromCamera(mouse, camera)]: the
    distances at which the ray from the camera through the pointer crosses
    the mesh, one for each face crossed. *)
Variable Mesh_raycast : Vector2 -> Camera -> Mesh -> list Qc.

(** [intersectObject(objects[i], raycaster, intersects)] *)
Definition intersectObject (pointer : Vector2) (cam : Camera)
    (i : nat) (m : Mesh) : list Intersection :=
  (fun d => mkIntersection d i) <$> Mesh_raycast pointer cam m.

(** [raycaster.setFromCamera(pointer, cam)] followed by
    [raycaster.intersectObjects(objects)]: every hit on every object,
    sorted by distance, closest first. *)
Definition intersectObjects (pointer : Vector2) (cam : Camera)
    (objects : list Mesh) : list Intersection :=
  Array_sort ascSort (mjoin (imap (intersectObject pointer cam) objects)).

(** *** Camera animation (lines 312-335) *)

(** [Math.pow(b, 3)] *)
Definition Math_pow3 (b : Qc) : Qc := b ^ 3.

(** The easing function of line 328. *)
Definition easing (progress : Qc) : Qc := 1 - Math_pow3 (1 - progress).

(** One call of the closure [animateCamera] (lines 323-333). *)
Definition animateCamera (t : Transition) (w : World) : World :=
  let progress' := progress t + 0.02 in
  let t' := mkTransition (targetConfig t) (startPosition t)
                         (targetPosition t) progress' in
  if bool_decide (progress' ≤ 1) then
    let cam :=
      mkCamera (lerpVectors (startPosition t) (targetPosition t)
                            (easing progress'))
               (Some (cfg_target (targetConfig t)))
               (cam_aspect (camera w)) in
    requestAnimationFrame (CbAnimateCamera t') (set_camera w cam)
  else w.

(** The camera effect, run when [currentSection] changes (lines 313-334).
    When the lookup yields a member of [Object.prototype], its [position]
    is [undefined], and spreading [undefined] into the arguments of
    [new THREE.Vector3(...)] (line 320) throws a [TypeError]. *)
Definition cameraEffect (w : World) : Completion World :=
  match resolve_targetConfig (currentSection w) with
  | JSConfig targetConfig =>
      let startPosition := cam_position (camera w) in
      let targetPosition := cfg_position targetConfig in
      Normal (animateCamera
                (mkTransition targetConfig startPosition targetPosition 0) w)
  | JSInherited _ => Throw TypeError
  | JSUndefined => Throw TypeError
  end.

(** *** Frame loop (lines 341-391) *)

Definition rotate_navigationObject (obj : Mesh) : Mesh :=
  if negb (String.eqb (type (userData obj)) "core") then
    set_rotation obj (mkEuler (ex (rotation obj) + 0.005)
                              (ey (rotation obj) + 0.01)
                              (ez (rotation obj)))
  else obj.

Definition scale_toward (target : Qc) (obj : Mesh) : Mesh :=
  set_scale obj (lerp (scale obj) (mkVector3 target target target) 0.1).

(** [Date.now() * 0.001] *)
Definition time_of (now : Z) : Qc := Qc_of_Z now * 0.001.

(** The two assignments to the rotation of the core (lines 354-355). *)
Definition animate_core (time : Qc) (m : Mesh) : Mesh :=
  set_rotation m (mkEuler (Math_sin (time * 0.3) * 0.1) (time * 0.5)
                          (ez (rotation m))).

(** One call of [animate]; [now] is the value of [Date.now()]. *)
Definition animate (now : Z) (w : World) : World :=
  let w := requestAnimationFrame CbAnimate w in
  let time := time_of now in
  (* Animate particles *)
  let w := set_particles w (mkEuler (time * 0.02) (time * 0.05)
                                    (ez (particles w))) in
  (* Animate core *)
  let w := set_navigationObjects w
             (alter (animate_core time) core (navigationObjects w)) in
  (* Animate navigation objects *)
  let w := set_navigationObjects w
             (rotate_navigationObject <$> navigationObjects w) in
  (* Hover effects *)
  let intersects :=
    intersectObjects (mouse w) (camera w) (navigationObjects w) in
  let w := set_navigationObjects w
             (scale_toward 1 <$> navigationObjects w) in
  let w := match intersects with
           | [] => w
           | hit :: _ =>
               set_navigationObjects w
                 (alter (scale_toward 1.2) (object hit) (navigationObjects w))
           end in
  (* Animate lights *)
  let w := set_keyLight w (mkVector3 (Math_sin (time * 0.5) * 10)
                                     (vy (keyLight w))
                                     (Math_cos (time * 0.5) * 10)) in
  let w := set_rimLight w (0.8 + Math_sin (time * 2) * 0.4) in
  render w.

(** The meshes as the hover test sees them, after the rotation updates of
    lines 352-366. *)
Definition rotated_navigationObjects (now : Z) (w : World) : list Mesh :=
  rotate_navigationObject <$>
    alter (animate_core (time_of now)) core (navigationObjects w).

(** The hits of the hover test of [animate]. *)
Definition hover_intersects (now : Z) (w : World) : list Intersection :=
  intersectObjects (mouse w) (camera w) (rotated_navigationObjects now w).

(** [intersects.length > 0] and [intersects[0].object] is the mesh [k]. *)
Definition first_hit_is (intersects : list Intersection) (k : nat) : bool :=
  match intersects with
  | [] => false
  | hit :: _ => bool_decide (object hit = k)
  end.

(** What one call of [animate] does to a mesh, given whether it is the
    core and whether it is the first hit of the hover test. *)
Definition animate_mesh (time : Qc) (is_core hovered : bool) (m : Mesh)
  : Mesh :=
  let m := if is_core then animate_core time m else m in
  let m := scale_toward 1 (rotate_navigationObject m) in
  if hovered then scale_toward 1.2 m else m.

(** *** Navigation state (lines 1326-1356) and the effects it triggers *)

(** A render of [Portfolio3D] after [currentSection] went from [prev] to
    its present value: [useMemo] and [useEffect] re-run when their
    dependency [currentSection] changed. *)
Definition rerender (prev : string) (w : World) : Completion World :=
  if String.eqb prev (currentSection w) then Normal w
  else
    let w := set_mountedPanels w
               (renderSection (currentSection w) :: mountedPanels w) in
    cameraEffect w.

(** The setter of [useState]: React skips the render when the new state is
    the current one. *)
Definition setCurrentSection (s : string) (w : World) : Completion World :=
  if String.eqb s (currentSection w) then Normal w
  else rerender (currentSection w) (set_currentSection w s).

Definition handleNavigation (s : string) (w : World) : Completion World :=
  setCurrentSection s w.

(** *** Pointer events (lines 282-300) *)

(** [window.innerWidth] and [window.innerHeight] are positive. *)
Definition handleMouseMove (clientX clientY innerWidth innerHeight : Qc)
    (w : World) : World :=
  set_mouse w (mkVector2 (clientX / innerWidth * 2 - 1)
                         (- (clientY / innerHeight) * 2 + 1)).

(** Truthiness of a string: the empty string is falsy. *)
Definition truthy_string (s : string) : bool := negb (String.eqb s "").

Definition handleClick
    (onInteraction : option (string -> World -> Completion World))
    (w : World) : Completion World :=
  let intersects :=
    intersectObjects (mouse w) (camera w) (navigationObjects w) in
  match intersects with
  | [] => Normal w
  | hit :: _ =>
      match navigationObjects w !! object hit with
      | Some obj =>
          let section := section (userData obj) in
          match onInteraction with
          | Some f => if truthy_string section then f section w else Normal w
          | None => Normal w
          end
      | None => Throw TypeError
      end
  end.

(** *** Resize (lines 398-404) *)

Definition handleResize (innerWidth innerHeight : Qc) (w : World) : World :=
  set_camera w (mkCamera (cam_position (camera w)) (cam_lookAt (camera w))
                         (innerWidth / innerHeight)).

(** *** Mount *)

(** The state before the effects of [SceneManager] run: [Portfolio3D] shows
    the home section, the camera is at the home position (line 56), the
    lights, particles and meshes are as constructed, the pointer is at the
    centre. *)
Definition initial_World (innerWidth innerHeight : Qc) : World :=
  mkWorld "home" [renderSection "home"]
          (mkCamera (cfg_position home_pose) None (innerWidth / innerHeight))
          build_navigationObjects
          (mkEuler 0 0 0)
          (mkVector3 10 10 5)
          1
          (mkVector2 0 0)
          []
          [].

(** The effects of [SceneManager] in the order of their declaration: the
    camera effect (line 312) runs before the first call of [animate]
    (line 393). *)
Definition mount (innerWidth innerHeight : Qc) (now : Z) : Completion World :=
  w ← cameraEffect (initial_World innerWidth innerHeight);
  mret (animate now w).

(** *** One display refresh *)

Definition runCallback (now : Z) (cb : Callback) (w : World) : World :=
  match cb with
  | CbAnimateCamera t => animateCamera t w
  | CbAnimate => animate now w
  end.

(** The browser runs the callbacks registered so far, in order; what they
    register is kept for the next refresh. *)
Definition frame (now : Z) (w : World) : World :=
  foldl (fun w cb => runCallback now cb w)
        (set_frameCallbacks w []) (frameCallbacks w).

(** *** Events *)

Inductive Event : Type :=
| Frame (now : Z)
| MouseMove (clientX clientY innerWidth innerHeight : Qc)
| Click
| DockClick (item : nat)
| Resize (innerWidth innerHeight : Qc).

(** A click on the page runs [handleClick] with [onInteraction] bound to
    [handleNavigation] (line 1379). *)
Definition click (w : World) : Completion World :=
  handleClick (Some handleNavigation) w.

(** A click on the dock button of [navItems[item]] runs its [onClick]
    (line 438); the event then reaches the listener on [window]. *)
Definition dockClick (item : nat) (w : World) : Completion World :=
  match navItems !! item with
  | Some id => w' ← handleNavigation id w; click w'
  | None => Normal w
  end.

Definition step (e : Event) (w : World) : Completion World :=
  match e with
  | Frame now => Normal (frame now w)
  | MouseMove cx cy iw ih => Normal (handleMouseMove cx cy iw ih w)
  | Click => click w
  | DockClick item => dockClick item w
  | Resize iw ih => Normal (handleResize iw ih w)
  end.

Fixpoint run (events : list Event) (w : World) : Completion World :=
  match events with
  | [] => Normal w
  | e :: events' => w' ← step e w; run events' w'
  end.

(** The states the page can be in. *)
Definition reachable (w : World) : Prop :=
  exists innerWidth innerHeight now events,
    (w0 ← mount innerWidth innerHeight now; run events w0) = Normal w.

End SceneManager.

(** ** Sample environments, for running the model *)

(** Polynomial stand-ins for [Math.sin] and [Math.cos]. *)
Definition sample_sin (a : Qc) : Qc := a - a ^ 3 / 6.
Definition sample_cos (a : Qc) : Qc := 1 - a ^ 2 / 2.

(** The pointer is over no mesh. *)
Definition ray_misses : Vector2 -> Camera -> Mesh -> list Qc :=
  fun _ _ _ => [].

(** The ray enters and leaves the core and nothing else. *)
Definition ray_through_core : Vector2 -> Camera -> Mesh -> list Qc :=
  fun _ _ m =>
    if String.eqb (type (userData m)) "core" then [10.5 : Qc; 13.5 : Qc]
    else [].

(** The ray crosses the cube labelled "hardware" in front of the core. *)
Definition ray_through_cube_and_core : Vector2 -> Camera -> Mesh -> list Qc :=
  fun _ _ m =>
    if String.eqb (type (userData m)) "core" then [10.5 : Qc; 13.5 : Qc]
    else if String.eqb (type (userData m)) "hardware" then [8.6 : Qc; 9.4 : Qc]
    else [].

(** ** Vocabulary of the properties *)

(** [a] is at most as far along the ray as [b]. *)
Definition not_farther (a b : Intersection) : Prop := distance a ≤ distance b.

(** The sections the meshes of the scene are tagged with. *)
Definition object_sections : list string :=
  [ "about"; "skills"; "experience"; "projects" ].

(** What stays fixed in every state of the page: the tags of the meshes,
    the coordinates the frame loop never assigns, a navigation state among
    the six sections, and one pending call of [animate]. *)
Definition scene_invariant (w : World) : Prop :=
  userData <$> navigationObjects w = userData <$> build_navigationObjects
  /\ ez (particles w) = 0
  /\ vy (keyLight w) = 10
  /\ (exists m, navigationObjects w !! core = Some m /\ ez (rotation m) = 0)
  /\ currentSection w ∈ navItems.

Definition one_animate_pending (w : World) : Prop :=
  filter (.= CbAnimate) (frameCallbacks w) = [CbAnimate].

(** The decorative state: rotation of the particle field, rotation of the
    core, position of the key light, intensity of the rim light. *)
Record Decor := mkDecor {
  decor_particles : Euler;
  decor_core : option Euler;
  decor_keyLight : Vector3;
  decor_rimLight : Qc
}.

Definition decor (w : World) : Decor :=
  mkDecor (particles w) (rotation <$> navigationObjects w !! core)
          (keyLight w) (rimLight w).

(** The decorative state written by a call of [animate] at [now]. *)
Definition decor_at (Math_sin Math_cos : Qc -> Qc) (now : Z) : Decor :=
  let time := time_of now in
  mkDecor (mkEuler (time * 0.02) (time * 0.05) 0)
          (Some (mkEuler (Math_sin (time * 0.3) * 0.1) (time * 0.5) 0))
          (mkVector3 (Math_sin (time * 0.5) * 10) 10
                     (Math_cos (time * 0.5) * 10))
          (0.8 + Math_sin (time * 2) * 0.4).



(** [p] lies in the open segment from [s] to [d]: on every coordinate where
    the ends differ it is strictly between them, on the others it agrees
    with both, and it is neither end. *)
Definition between_coordinate (s d p : Qc) : Prop :=
  (s < d -> s < p < d) /\ (d < s -> d < p < s) /\ (s = d -> p = s).

Definition strictly_between (s d p : Vector3) : Prop :=
  between_coordinate (vx s) (vx d) (vx p) /\
  between_coordinate (vy s) (vy d) (vy p) /\
  between_coordinate (vz s) (vz d) (vz p) /\
  p <> s /\ p <> d.

(** ** Sample runs *)

(** The page just after its mount, with the pointer over the cube in front
    of the core. *)
Definition sample_mount : Completion World :=
  mount sample_sin sample_cos ray_through_cube_and_core 16 9 1000.

Definition sample_world : World :=
  match sample_mount with
  | Normal w => w
  | Throw _ => initial_World 16 9
  end.




(** A navigation request just after the mount: the dock button "about" is
    clicked before the first display refresh. *)
Definition early_request (frames : nat) : Completion World :=
  w ← mount sample_sin sample_cos ray_misses 16 9 0;
  run sample_sin sample_cos ray_misses
      ([DockClick 1] ++ replicate frames (Frame 16)) w.

(** The pointer rests on the core from the mount on. *)
Definition hovering_core (frames : nat) : Completion World :=
  w ← mount sample_sin sample_cos ray_through_core 16 9 0;
  run sample_sin sample_cos ray_through_core (replicate frames (Frame 16)) w.

(** The scale of the core, when the run ended normally. *)
Definition core_scale (c : Completion World) : option Vector3 :=
  match c with
  | Normal w => scale <$> navigationObjects w !! core
  | Throw _ => None
  end.

Definition camera_position (c : Completion World) : option Vector3 :=
  match c with
  | Normal w => Some (cam_position (camera w))
  | Throw _ => None
  end.

(** ** Teardown (lines 78-87) *)

(** The queue without the callback registered last by [animate]. *)
Fixpoint cancel_last_animate (q : list Callback) : list Callback :=
  match q with
  | [] => []
  | cb :: q' =>
      if bool_decide (cb = CbAnimate) && bool_decide (CbAnimate ∉ q') then q'
      else cb :: cancel_last_animate q'
  end.

(** The cleanup of the effect of [useThreeScene]:
    [cancelAnimationFrame(animationFrameRef.current)], where the ref holds
    the request made by the last call of [animate] (line 342).  The camera
    and the meshes are left as they are; the page handles no further
    event. *)
Definition cleanup (w : World) : World :=
  set_frameCallbacks w (cancel_last_animate (frameCallbacks w)).

(** ** Particle field (lines 146-166) *)



(** ** Project cards (lines 923-934) *)



(** ** Further vocabulary of the properties *)

(** The box spanned by the six camera poses of [CAMERA_POSITIONS]. *)
Definition in_pose_box (p : Vector3) : Prop :=
  (-8 ≤ vx p /\ vx p ≤ 8) /\ (-6 ≤ vy p /\ vy p ≤ 8)
  /\ (8 ≤ vz p /\ vz p ≤ 20).

Definition transition_of (cb : Callback) : option Transition :=
  match cb with
  | CbAnimateCamera t => Some t
  | CbAnimate => None
  end.

(** The camera transitions whose callback is registered. *)
Definition pending_transitions (w : World) : list Transition :=
  omap transition_of (frameCallbacks w).

(** The transition whose callback a call of [animateCamera] registers, if
    it registers one. *)
Definition next_transition (t : Transition) : option Transition :=
  if bool_decide (progress t + 0.02 ≤ 1)
  then Some (mkTransition (targetConfig t) (startPosition t)
                          (targetPosition t) (progress t + 0.02))
  else None.

(** A pending transition runs between two points of the box, has taken at
    least its first step and has not gone past its end. *)
Definition transition_in_box (t : Transition) : Prop :=
  in_pose_box (startPosition t) /\ in_pose_box (targetPosition t)
  /\ 0.02 ≤ progress t /\ progress t ≤ 1.

Definition camera_invariant (w : World) : Prop :=
  in_pose_box (cam_position (camera w))
  /\ Forall transition_in_box (pending_transitions w).


(** The same scale on the three axes, between [lo] and [hi]. *)
Definition uniform_scale (lo hi : Qc) (m : Mesh) : Prop :=
  vx (scale m) = vy (scale m) /\ vy (scale m) = vz (scale m)
  /\ lo ≤ vx (scale m) /\ vx (scale m) ≤ hi.

(** The aspect ratio and the pointer after some events, read off the resize
    and mouse-move events alone. *)
Fixpoint aspect_after (events : list Event) (aspect : Qc) : Qc :=
  match events with
  | [] => aspect
  | Resize innerWidth innerHeight :: events' =>
      aspect_after events' (innerWidth / innerHeight)
  | _ :: events' => aspect_after events' aspect
  end.

Fixpoint pointer_after (events : list Event) (pointer : Vector2) : Vector2 :=
  match events with
  | [] => pointer
  | MouseMove clientX clientY innerWidth innerHeight :: events' =>
      pointer_after events'
        (mkVector2 (clientX / innerWidth * 2 - 1)
                   (- (clientY / innerHeight) * 2 + 1))
  | _ :: events' => pointer_after events' pointer
  end.


(** ** Further sample runs *)

(** Some events after the mount of [sample_mount]. *)
Definition sample_events : list Event :=
  [ Frame 1016; MouseMove 480 270 1920 1080; Click; Frame 1033;
    Resize 1280 720; DockClick 5; Frame 1050 ].

Definition sample_later_world : World :=
  match run sample_sin sample_cos ray_through_cube_and_core sample_events
            sample_world with
  | Normal w => w
  | Throw _ => sample_world
  end.


(** ** Particle colours (line 159) *)

(** [Math.trunc]: the integer part, toward zero. *)
Definition Math_trunc (x : Qc) : Z :=
  if bool_decide (0 ≤ x) then Qfloor x else Qceiling x.

(** The remainder operator [x % y] on numbers, for [y] other than zero: its
    result has the sign of [x]. *)
Definition js_rem (x y : Qc) : Qc := x - Qc_of_Z (Math_trunc (x / y)) * y.

(** [(Math.random() * 0.3 + 0.5) % 1] *)
Definition particle_hue (r : Qc) : Qc := js_rem (r * 0.3 + 0.5) 1.

(** The transition started last among those pending, if any: its callback
    runs after those of the older ones in every display refresh. *)
Definition newest_transition (w : World) : option Transition :=
  list.last (pending_transitions w).

(** The camera is where the transition [t] last put it, and [t] heads for
    the pose of the current section. *)
Definition follows (t : Transition) (w : World) : Prop :=
  cam_position (camera w) =
    lerpVectors (startPosition t) (targetPosition t) (easing (progress t))
  /\ cam_lookAt (camera w) = Some (cfg_target (targetConfig t))
  /\ resolve_targetConfig (currentSection w) = JSConfig (targetConfig t)
  /\ targetPosition t = cfg_position (targetConfig t).

Definition newest_transition_invariant (w : World) : Prop :=
  forall t, newest_transition w = Some t ->
    follows t w
    /\ Forall (fun u => progress t ≤ progress u) (pending_transitions w).


(** The transition started last in the sample run. *)
Definition sample_transition : Transition :=
  default (mkTransition home_pose (cfg_position home_pose)
                        (cfg_position home_pose) 0)
          (newest_transition sample_later_world).


(** * Properties *)

(** ** Arithmetic on rationals in lowest terms

    Order facts on [Qc] are proved on the underlying fractions, where
    [lra] and [nra] apply. *)

Lemma this_plus (a b : Qc) : (this (a + b) == this a + this b)%Q.
Proof. simpl. apply Qred_correct. Qed.

Lemma this_opp (a : Qc) : (this (- a) == - this a)%Q.
Proof. simpl. apply Qred_correct. Qed.

Lemma this_minus (a b : Qc) : (this (a - b) == this a - this b)%Q.
Proof. unfold Qcminus. rewrite this_plus, this_opp. reflexivity. Qed.

Lemma this_mult (a b : Qc) : (this (a * b) == this a * this b)%Q.
Proof. simpl. apply Qred_correct. Qed.

Lemma this_Q2Qc (q : Q) : (this (Q2Qc q) == q)%Q.
Proof. simpl. apply Qred_correct. Qed.

Ltac to_fractions :=
  unfold Qclt, Qcle in *;
  try apply Qc_is_canon;
  repeat (rewrite ?this_plus, ?this_minus, ?this_opp, ?this_mult,
            ?this_Q2Qc in * ).

(** A closed fact on numbers, decided by evaluation. *)
Ltac by_evaluation :=
  match goal with
  | |- ?P => apply (bool_decide_eq_true_1 P); vm_compute; reflexivity
  end.

Lemma Qc_lt_neq (a b : Qc) : a < b -> a <> b.
Proof. intros H ->. exact (Qclt_not_eq _ _ H eq_refl). Qed.

(** The easing curve maps the open unit interval into itself. *)
Lemma easing_open_unit (p : Qc) : 0 < p -> p < 1 -> 0 < easing p < 1.
Proof.
  intros H0 H1. unfold easing, Math_pow3. simpl Qcpower.
  to_fractions.
  set (u := (1 - this p)%Q) in *.
  assert (0 < u)%Q by (unfold u; lra).
  assert (u < 1)%Q by (unfold u; lra).
  assert (0 < u * u)%Q by nra.
  assert (u * u < 1)%Q by nra.
  split; nra.
Qed.

Lemma easing_0 : easing 0 = 0.
Proof. by_evaluation. Qed.

Lemma easing_1 : easing 1 = 1.
Proof. by_evaluation. Qed.

(** One coordinate of an interpolation with a parameter in the open unit
    interval lies strictly between the two ends. *)
Lemma lerp_coordinate_between (s d e : Qc) :
  0 < e -> e < 1 -> s < d ->
  s < s + (d - s) * e /\ s + (d - s) * e < d.
Proof. intros. to_fractions. split; nra. Qed.

Lemma lerp_coordinate_between_desc (s d e : Qc) :
  0 < e -> e < 1 -> d < s ->
  d < s + (d - s) * e /\ s + (d - s) * e < s.
Proof. intros. to_fractions. split; nra. Qed.

Lemma lerp_coordinate_same (s e : Qc) : s + (s - s) * e = s.
Proof. ring. Qed.

(** ** Camera interpolation *)

Lemma between_coordinate_lerp (s d e : Qc) :
  0 < e -> e < 1 -> between_coordinate s d (s + (d - s) * e).
Proof.
  intros H0 H1. repeat split.
  - apply lerp_coordinate_between; assumption.
  - apply lerp_coordinate_between; assumption.
  - apply lerp_coordinate_between_desc; assumption.
  - apply lerp_coordinate_between_desc; assumption.
  - intros ->. apply lerp_coordinate_same.
Qed.

Lemma between_coordinate_neq (s d p : Qc) :
  s <> d -> between_coordinate s d p -> p <> s /\ p <> d.
Proof.
  intros Hsd (Hlt & Hgt & _).
  destruct (Qclt_le_dec s d) as [H | H].
  - destruct (Hlt H) as [H1 H2]. split.
    + intros ->. exact (Qclt_not_eq _ _ H1 eq_refl).
    + apply Qc_lt_neq. assumption.
  - assert (d < s) as H'.
    { apply Qcle_lt_or_eq in H. destruct H as [H | H]; [assumption|].
      congruence. }
    destruct (Hgt H') as [H1 H2]. split.
    + apply Qc_lt_neq. assumption.
    + intros ->. exact (Qclt_not_eq _ _ H1 eq_refl).
Qed.

Lemma Vector3_neq_coordinate (a b : Vector3) :
  a <> b -> vx a <> vx b \/ vy a <> vy b \/ vz a <> vz b.
Proof.
  intros Hne. destruct a as [ax ay az], b as [bx by_ bz]. simpl.
  destruct (decide (ax = bx)) as [-> |]; [|by left].
  destruct (decide (ay = by_)) as [-> |]; [|by right; left].
  destruct (decide (az = bz)) as [-> |]; [|by right; right].
  by destruct Hne.
Qed.

Lemma lerpVectors_strictly_between (s d : Vector3) (e : Qc) :
  s <> d -> 0 < e -> e < 1 -> strictly_between s d (lerpVectors s d e).
Proof.
  intros Hne H0 H1.
  pose proof (between_coordinate_lerp (vx s) (vx d) e H0 H1) as Bx.
  pose proof (between_coordinate_lerp (vy s) (vy d) e H0 H1) as By.
  pose proof (between_coordinate_lerp (vz s) (vz d) e H0 H1) as Bz.
  unfold strictly_between. simpl.
  split; [exact Bx|]. split; [exact By|]. split; [exact Bz|]. split.
  - intros Heq.
    pose proof (f_equal vx Heq) as Ex. pose proof (f_equal vy Heq) as Ey.
    pose proof (f_equal vz Heq) as Ez. simpl in Ex, Ey, Ez.
    destruct (Vector3_neq_coordinate s d Hne) as [H | [H | H]].
    + by destruct (between_coordinate_neq _ _ _ H Bx).
    + by destruct (between_coordinate_neq _ _ _ H By).
    + by destruct (between_coordinate_neq _ _ _ H Bz).
  - intros Heq.
    pose proof (f_equal vx Heq) as Ex. pose proof (f_equal vy Heq) as Ey.
    pose proof (f_equal vz Heq) as Ez. simpl in Ex, Ey, Ez.
    destruct (Vector3_neq_coordinate s d Hne) as [H | [H | H]].
    + by destruct (between_coordinate_neq _ _ _ H Bx).
    + by destruct (between_coordinate_neq _ _ _ H By).
    + by destruct (between_coordinate_neq _ _ _ H Bz).
Qed.

(** A call of [animateCamera] that passes the test [progress <= 1]. *)
Lemma animateCamera_running (t : Transition) (w : World) :
  progress t + 0.02 ≤ 1 ->
  animateCamera t w =
    requestAnimationFrame
      (CbAnimateCamera (mkTransition (targetConfig t) (startPosition t)
                                     (targetPosition t) (progress t + 0.02)))
      (set_camera w
         (mkCamera (lerpVectors (startPosition t) (targetPosition t)
                                (easing (progress t + 0.02)))
                   (Some (cfg_target (targetConfig t)))
                   (cam_aspect (camera w)))).
Proof.
  intros H. unfold animateCamera. by rewrite bool_decide_eq_true_2.
Qed.

(** A call of [animateCamera] that fails the test: nothing is written and
    nothing is registered. *)
Lemma animateCamera_finished (t : Transition) (w : World) :
  1 < progress t + 0.02 -> animateCamera t w = w.
Proof.
  intros H. unfold animateCamera. rewrite bool_decide_eq_false_2; [done|].
  by apply Qclt_not_le.
Qed.

(** C7.  In a call of [animateCamera] that brings the interpolation
    parameter to a value [p] strictly between 0 and 1, for a transition with
    distinct start and destination, the camera is placed at the linear
    interpolation of start and destination at the eased parameter
    [1 - (1 - p)^3]; the eased parameter is strictly between 0 and 1 and the
    position strictly between the two poses, beyond neither. *)
Theorem animateCamera_eased_interpolation (t : Transition) (w : World) :
  let p := progress t + 0.02 in
  0 < p -> p < 1 -> startPosition t <> targetPosition t ->
  cam_position (camera (animateCamera t w)) =
    lerpVectors (startPosition t) (targetPosition t) (1 - (1 - p) ^ 3)
  /\ 0 < 1 - (1 - p) ^ 3 < 1
  /\ strictly_between (startPosition t) (targetPosition t)
       (cam_position (camera (animateCamera t w))).
Proof.
  intros p H0 H1 Hne.
  rewrite animateCamera_running by (apply Qclt_le_weak; exact H1).
  fold p. change (1 - (1 - p) ^ 3) with (easing p). simpl.
  split; [reflexivity|]. split.
  - apply easing_open_unit; assumption.
  - apply lerpVectors_strictly_between; [assumption| |];
      apply easing_open_unit; assumption.
Qed.

(** ** Resolving the target pose *)

Lemma lookup_home : CAMERA_POSITIONS !! "home" = Some home_pose.
Proof. vm_compute. reflexivity. Qed.

Lemma resolve_recognized (s : string) (c : CameraConfig) :
  CAMERA_POSITIONS !! s = Some c -> resolve_targetConfig s = JSConfig c.
Proof.
  intros H. unfold resolve_targetConfig, get_CAMERA_POSITIONS. by rewrite H.
Qed.

Lemma resolve_unrecognized (s : string) :
  CAMERA_POSITIONS !! s = None -> s ∉ Object_prototype ->
  resolve_targetConfig s = JSConfig home_pose.
Proof.
  intros H Hproto. unfold resolve_targetConfig, get_CAMERA_POSITIONS.
  rewrite H, bool_decide_eq_false_2 by assumption. simpl.
  by rewrite lookup_home.
Qed.



(** For every identifier that is not the name of a member of
    [Object.prototype], the lookup yields a pose: the one mapped to the
    identifier when there is one, the home pose otherwise. *)
Lemma resolve_total (s : string) :
  s ∉ Object_prototype ->
  resolve_targetConfig s =
    JSConfig (default home_pose (CAMERA_POSITIONS !! s)).
Proof.
  intros H. destruct (CAMERA_POSITIONS !! s) as [c|] eqn:E; simpl.
  - by apply resolve_recognized.
  - by apply resolve_unrecognized.
Qed.

Lemma navItems_recognized (s : string) :
  s ∈ navItems -> exists c, resolve_targetConfig s = JSConfig c.
Proof.
  unfold navItems. rewrite !elem_of_cons, elem_of_nil. intros H.
  repeat (destruct H as [-> | H]; [eexists; vm_compute; reflexivity|]).
  destruct H.
Qed.

Section Properties.

Variable Math_sin Math_cos : Qc -> Qc.
Variable Mesh_raycast : Vector2 -> Camera -> Mesh -> list Qc.

Local Abbreviation animate := (animate Math_sin Math_cos Mesh_raycast).
Local Abbreviation animate_core := (animate_core Math_sin).
Local Abbreviation animate_mesh := (animate_mesh Math_sin).
Local Abbreviation rotated_navigationObjects :=
  (rotated_navigationObjects Math_sin).
Local Abbreviation hover_intersects :=
  (hover_intersects Math_sin Mesh_raycast).
Local Abbreviation frame := (frame Math_sin Math_cos Mesh_raycast).
Local Abbreviation runCallback := (runCallback Math_sin Math_cos Mesh_raycast).
Local Abbreviation intersectObjects := (intersectObjects Mesh_raycast).
Local Abbreviation click := (click Mesh_raycast).
Local Abbreviation dockClick := (dockClick Mesh_raycast).
Local Abbreviation step := (step Math_sin Math_cos Mesh_raycast).
Local Abbreviation run := (run Math_sin Math_cos Mesh_raycast).
Local Abbreviation mount := (mount Math_sin Math_cos Mesh_raycast).
Local Abbreviation reachable := (reachable Math_sin Math_cos Mesh_raycast).
Local Abbreviation decor_at := (decor_at Math_sin Math_cos).

(** The camera effect on a state whose section resolves to a pose: the
    transition starts at the present camera position and its first step is
    taken at once. *)
Lemma cameraEffect_resolved (w : World) (c : CameraConfig) :
  resolve_targetConfig (currentSection w) = JSConfig c ->
  cameraEffect w =
    Normal (animateCamera
              (mkTransition c (cam_position (camera w)) (cfg_position c) 0) w).
Proof. intros H. unfold cameraEffect. by rewrite H. Qed.

Lemma cameraEffect_total (w : World) :
  currentSection w ∉ Object_prototype ->
  let c := default home_pose (CAMERA_POSITIONS !! currentSection w) in
  cameraEffect w =
    Normal (animateCamera
              (mkTransition c (cam_position (camera w)) (cfg_position c) 0) w).
Proof. intros H c. apply cameraEffect_resolved. by apply resolve_total. Qed.


(** ** Navigation to the current section *)

Lemma animateCamera_currentSection (t : Transition) (w : World) :
  currentSection (animateCamera t w) = currentSection w.
Proof. unfold animateCamera. by destruct (bool_decide _). Qed.

Lemma cameraEffect_currentSection (w w' : World) :
  cameraEffect w = Normal w' -> currentSection w' = currentSection w.
Proof.
  unfold cameraEffect. destruct (resolve_targetConfig _); try discriminate.
  intros [= <-]. apply animateCamera_currentSection.
Qed.

Lemma handleNavigation_currentSection (s : string) (w w' : World) :
  handleNavigation s w = Normal w' -> currentSection w' = s.
Proof.
  unfold handleNavigation, setCurrentSection, rerender.
  destruct (String.eqb s (currentSection w)) eqn:E.
  - intros [= <-]. symmetry. by apply String.eqb_eq.
  - simpl currentSection. rewrite String.eqb_sym, E.
    intros H. by apply cameraEffect_currentSection in H.
Qed.

(** C8.  Going to the section that is already current returns normally and
    leaves the whole state as it is: the navigation state, the queue of
    animation callbacks (no camera transition is started), the camera, and
    the list of mounted panels (no panel is mounted). *)
Theorem handleNavigation_same_section (s : string) (w : World) :
  currentSection w = s -> handleNavigation s w = Normal w.
Proof.
  intros <-. unfold handleNavigation, setCurrentSection.
  by rewrite String.eqb_refl.
Qed.

(** Going to a section twice in a row is the same as going there once. *)
Lemma handleNavigation_twice (s : string) (w w' : World) :
  handleNavigation s w = Normal w' -> handleNavigation s w' = Normal w'.
Proof.
  intros H. unfold handleNavigation, setCurrentSection.
  by rewrite (handleNavigation_currentSection _ _ _ H), String.eqb_refl.
Qed.

(** Going to another section does start a transition and mount a panel. *)
Lemma handleNavigation_other_section (s : string) (w : World) :
  s <> currentSection w -> s ∉ Object_prototype ->
  exists t, handleNavigation s w =
    Normal (animateCamera t
              (set_mountedPanels (set_currentSection w s)
                 (renderSection s :: mountedPanels w)))
    /\ startPosition t = cam_position (camera w)
    /\ targetConfig t = default home_pose (CAMERA_POSITIONS !! s)
    /\ progress t = 0.
Proof.
  intros Hne Hproto. unfold handleNavigation, setCurrentSection, rerender.
  rewrite (proj2 (String.eqb_neq _ _) Hne). simpl currentSection.
  rewrite String.eqb_sym, (proj2 (String.eqb_neq _ _) Hne).
  rewrite cameraEffect_total by done. simpl. eexists. by repeat split.
Qed.

(** ** The frame loop, field by field *)

Lemma animate_navigationObjects (now : Z) (w : World) :
  navigationObjects (animate now w) =
    match hover_intersects now w with
    | [] => scale_toward 1 <$> rotated_navigationObjects now w
    | hit :: _ =>
        alter (scale_toward 1.2) (object hit)
              (scale_toward 1 <$> rotated_navigationObjects now w)
    end.
Proof.
  unfold animate. simpl.
  change (intersectObjects _ _ _) with (hover_intersects now w).
  by destruct (hover_intersects now w).
Qed.

Ltac animate_field :=
  intros; unfold animate; simpl;
  try match goal with
      | |- context [match ?l with [] => _ | _ :: _ => _ end] => destruct l
      end;
  reflexivity.

Lemma animate_camera now w : camera (animate now w) = camera w.
Proof. animate_field. Qed.

Lemma animate_currentSection now w :
  currentSection (animate now w) = currentSection w.
Proof. animate_field. Qed.

Lemma animate_mountedPanels now w :
  mountedPanels (animate now w) = mountedPanels w.
Proof. animate_field. Qed.

Lemma animate_mouse now w : mouse (animate now w) = mouse w.
Proof. animate_field. Qed.

Lemma animate_frameCallbacks now w :
  frameCallbacks (animate now w) = frameCallbacks w ++ [CbAnimate].
Proof. animate_field. Qed.

Lemma animate_rendered now w :
  rendered (animate now w) = camera w :: rendered w.
Proof. animate_field. Qed.

Lemma animate_particles now w :
  particles (animate now w) =
    mkEuler (time_of now * 0.02) (time_of now * 0.05) (ez (particles w)).
Proof. animate_field. Qed.

Lemma animate_keyLight now w :
  keyLight (animate now w) =
    mkVector3 (Math_sin (time_of now * 0.5) * 10) (vy (keyLight w))
              (Math_cos (time_of now * 0.5) * 10).
Proof. animate_field. Qed.

Lemma animate_rimLight now w :
  rimLight (animate now w) = 0.8 + Math_sin (time_of now * 2) * 0.4.
Proof. animate_field. Qed.

Lemma alter_lookup_bool {A : Type} (f : A -> A) (i k : nat) (l : list A) :
  alter f i l !! k =
    (fun a => if bool_decide (i = k) then f a else a) <$> l !! k.
Proof.
  rewrite list_lookup_alter. case_decide as H.
  - subst. rewrite bool_decide_eq_true_2 by done. reflexivity.
  - rewrite bool_decide_eq_false_2 by done. by destruct (l !! k).
Qed.

(** The mesh at index [k] after one call of [animate]. *)
Lemma animate_lookup (now : Z) (w : World) (k : nat) :
  navigationObjects (animate now w) !! k =
    animate_mesh (time_of now) (bool_decide (core = k))
                 (first_hit_is (hover_intersects now w) k)
      <$> navigationObjects w !! k.
Proof.
  rewrite animate_navigationObjects. unfold rotated_navigationObjects.
  unfold animate_mesh.
  destruct (hover_intersects now w) as [|hit rest]; simpl first_hit_is.
  - rewrite !list_lookup_fmap, alter_lookup_bool.
    by destruct (navigationObjects w !! k).
  - rewrite alter_lookup_bool, !list_lookup_fmap, alter_lookup_bool.
    by destruct (navigationObjects w !! k).
Qed.

Lemma animate_mesh_userData time c h m :
  userData (animate_mesh time c h m) = userData m.
Proof.
  unfold animate_mesh, rotate_navigationObject.
  destruct c, h; simpl; by destruct (negb _).
Qed.

Lemma animate_tags (now : Z) (w : World) :
  userData <$> navigationObjects (animate now w) =
  userData <$> navigationObjects w.
Proof.
  apply list_eq. intros k. rewrite !list_lookup_fmap, animate_lookup.
  destruct (navigationObjects w !! k); simpl; [|done].
  by rewrite animate_mesh_userData.
Qed.

(** ** Sorting the hits *)

Lemma ascSort_le (a b : Intersection) :
  ascSort a b ≤ 0 <-> distance a ≤ distance b.
Proof. unfold ascSort. split; intros H; to_fractions; lra. Qed.

Lemma sort_insert_perm {A : Type} (compare : A -> A -> Qc) (a : A)
    (l : list A) :
  sort_insert compare a l ≡ₚ a :: l.
Proof.
  induction l as [|b l IH]; simpl; [done|].
  case_bool_decide; [done|].
  rewrite IH. apply Permutation_swap.
Qed.

Lemma Array_sort_perm {A : Type} (compare : A -> A -> Qc) (l : list A) :
  Array_sort compare l ≡ₚ l.
Proof.
  induction l as [|a l IH]; simpl; [done|].
  rewrite sort_insert_perm. by rewrite IH.
Qed.

Lemma sort_insert_sorted (a : Intersection) (l : list Intersection) :
  StronglySorted not_farther l ->
  StronglySorted not_farther (sort_insert ascSort a l).
Proof.
  induction 1 as [|b l Hs IH Hb]; simpl.
  - repeat constructor.
  - case_bool_decide as Hab.
    + apply ascSort_le in Hab. constructor; [by constructor|].
      constructor; [exact Hab|].
      eapply Forall_impl; [|exact Hb].
      intros c Hc. unfold not_farther in *. by etrans.
    + constructor; [exact IH|].
      rewrite sort_insert_perm. constructor; [|exact Hb].
      rewrite ascSort_le in Hab. unfold not_farther.
      apply Qclt_le_weak. by apply Qclt_nge.
Qed.

Lemma Array_sort_sorted (l : list Intersection) :
  StronglySorted not_farther (Array_sort ascSort l).
Proof.
  induction l as [|a l IH]; simpl; [constructor|].
  by apply sort_insert_sorted.
Qed.

(** The first element of the sorted array is a least element of the
    input. *)
Lemma Array_sort_head (l : list Intersection) (hit : Intersection)
    (rest : list Intersection) :
  Array_sort ascSort l = hit :: rest ->
  hit ∈ l /\ forall i, i ∈ l -> distance hit ≤ distance i.
Proof.
  intros H. pose proof (Array_sort_sorted l) as Hs.
  pose proof (Array_sort_perm ascSort l) as Hp. rewrite H in Hs, Hp.
  split.
  - rewrite <- Hp. by left.
  - intros i Hi. rewrite <- Hp in Hi.
    apply StronglySorted_inv in Hs as [_ Hall].
    apply elem_of_cons in Hi as [-> | Hi]; [apply Qcle_refl|].
    exact (proj1 (list.Forall_forall _ _) Hall i Hi).
Qed.

Lemma Array_sort_nil {A : Type} (compare : A -> A -> Qc) (l : list A) :
  Array_sort compare l = [] <-> l = [].
Proof.
  split; [|by intros ->].
  intros H. pose proof (Array_sort_perm compare l) as Hp.
  rewrite H in Hp. by apply Permutation_nil_l in Hp.
Qed.

(** ** The hits of a ray *)

(** The array returned holds exactly the crossings of the ray with the
    meshes, each with the index of its mesh. *)
Lemma intersectObjects_elem (pointer : Vector2) (cam : Camera)
    (objects : list Mesh) (i : Intersection) :
  i ∈ intersectObjects pointer cam objects <->
  exists m, objects !! object i = Some m
            /\ distance i ∈ Mesh_raycast pointer cam m.
Proof.
  unfold intersectObjects. rewrite (Array_sort_perm ascSort).
  rewrite list_elem_of_join. split.
  - intros (l & Hi & Hl).
    apply elem_of_lookup_imap in Hl as (k & m & -> & Hk).
    unfold intersectObject in Hi.
    apply list_elem_of_fmap in Hi as (d & -> & Hd). simpl. eauto.
  - intros (m & Hk & Hd). exists (intersectObject Mesh_raycast pointer cam (object i) m).
    split.
    + unfold intersectObject. apply list_elem_of_fmap.
      exists (distance i). split; [by destruct i|done].
    + apply elem_of_lookup_imap. eauto.
Qed.

(** No hit at all: no mesh is crossed. *)
Lemma intersectObjects_nil (pointer : Vector2) (cam : Camera)
    (objects : list Mesh) :
  intersectObjects pointer cam objects = [] ->
  forall k m, objects !! k = Some m -> Mesh_raycast pointer cam m = [].
Proof.
  intros E k m Hk.
  destruct (Mesh_raycast pointer cam m) as [|d ds] eqn:Ed; [done|].
  assert (mkIntersection d k ∈ intersectObjects pointer cam objects) as Hin.
  { apply intersectObjects_elem. exists m. simpl. rewrite Ed.
    split; [done|by left]. }
  rewrite E in Hin. by apply elem_of_nil in Hin.
Qed.

(** The first hit is a crossing with the mesh it names, and no crossing
    with any mesh is nearer. *)
Lemma intersectObjects_head (pointer : Vector2) (cam : Camera)
    (objects : list Mesh) (hit : Intersection) (rest : list Intersection) :
  intersectObjects pointer cam objects = hit :: rest ->
  (exists m, objects !! object hit = Some m
             /\ distance hit ∈ Mesh_raycast pointer cam m)
  /\ (forall k m d, objects !! k = Some m ->
                    d ∈ Mesh_raycast pointer cam m -> distance hit ≤ d).
Proof.
  intros E.
  assert (hit ∈ intersectObjects pointer cam objects) as Hhit
    by (rewrite E; by left).
  apply Array_sort_head in E as [_ Hleast].
  apply intersectObjects_elem in Hhit as (m & Hm & Hd).
  split; [eauto|].
  intros k m' d Hk Hd'. apply (Hleast (mkIntersection d k)).
  assert (mkIntersection d k ∈ intersectObjects pointer cam objects) as Hin
    by (apply intersectObjects_elem; eauto).
  unfold intersectObjects in Hin.
  by rewrite (Array_sort_perm ascSort) in Hin.
Qed.

(** C4.  The array of hits is empty exactly when the ray crosses no
    navigable mesh.  Otherwise its first entry, which [handleClick] and the
    hover test of [animate] read as [intersects[0]], is a crossing of the
    ray with the mesh it names, and no crossing of the ray with any
    navigable mesh is nearer; so of two meshes along the ray, the one whose
    crossings are all nearer is never passed over for the other. *)
Theorem intersectObjects_first_is_nearest (pointer : Vector2) (cam : Camera)
    (objects : list Mesh) :
  match intersectObjects pointer cam objects with
  | [] => forall k m, objects !! k = Some m -> Mesh_raycast pointer cam m = []
  | hit :: _ =>
      (exists m, objects !! object hit = Some m
                 /\ distance hit ∈ Mesh_raycast pointer cam m)
      /\ (forall k m d, objects !! k = Some m ->
                        d ∈ Mesh_raycast pointer cam m -> distance hit ≤ d)
      /\ (forall near far m_near m_far,
            objects !! near = Some m_near -> objects !! far = Some m_far ->
            Mesh_raycast pointer cam m_near <> [] ->
            (forall d d', d ∈ Mesh_raycast pointer cam m_near ->
                          d' ∈ Mesh_raycast pointer cam m_far -> d < d') ->
            object hit <> far)
  end.
Proof.
  destruct (intersectObjects pointer cam objects) as [|hit rest] eqn:E.
  - by apply intersectObjects_nil.
  - destruct (intersectObjects_head _ _ _ _ _ E) as [(m & Hm & Hd) Hleast].
    split; [eauto|]. split; [exact Hleast|].
    intros near far m_near m_far Hnear Hfar Hne Hlt Heq.
    rewrite Heq, Hfar in Hm. injection Hm as <-.
    destruct (Mesh_raycast pointer cam m_near) as [|d ds] eqn:Ed; [done|].
    assert (d < distance hit) as H1.
    { apply Hlt; [by left|done]. }
    assert (distance hit ≤ d) as H2.
    { apply (Hleast near m_near); [done|]. rewrite Ed. by left. }
    by apply Qclt_nge in H1.
Qed.

(** ** What each piece of code leaves alone *)

Lemma animateCamera_frame (t : Transition) (w : World) :
  navigationObjects (animateCamera t w) = navigationObjects w
  /\ particles (animateCamera t w) = particles w
  /\ keyLight (animateCamera t w) = keyLight w
  /\ rimLight (animateCamera t w) = rimLight w
  /\ mouse (animateCamera t w) = mouse w
  /\ mountedPanels (animateCamera t w) = mountedPanels w
  /\ rendered (animateCamera t w) = rendered w.
Proof. unfold animateCamera. by destruct (bool_decide _). Qed.

Lemma animateCamera_pending (t : Transition) (w : World) :
  filter (.= CbAnimate) (frameCallbacks (animateCamera t w)) =
  filter (.= CbAnimate) (frameCallbacks w).
Proof.
  unfold animateCamera. destruct (bool_decide _); [|done]. simpl.
  rewrite list.filter_app, filter_cons_False by done. simpl.
  by rewrite app_nil_r.
Qed.

Lemma animate_pending (now : Z) (w : World) :
  filter (.= CbAnimate) (frameCallbacks (animate now w)) =
  filter (.= CbAnimate) (frameCallbacks w) ++ [CbAnimate].
Proof.
  rewrite animate_frameCallbacks, list.filter_app. f_equal.
Qed.

Lemma animate_mesh_ez time c h m :
  ez (rotation (animate_mesh time c h m)) = ez (rotation m).
Proof.
  unfold animate_mesh, rotate_navigationObject.
  destruct c, h; simpl; by destruct (negb _).
Qed.

(** ** The invariant of the scene *)

Lemma animateCamera_invariant (t : Transition) (w : World) :
  scene_invariant w -> scene_invariant (animateCamera t w).
Proof.
  unfold scene_invariant.
  destruct (animateCamera_frame t w) as (-> & -> & -> & _).
  by rewrite animateCamera_currentSection.
Qed.

Lemma animate_invariant (now : Z) (w : World) :
  scene_invariant w -> scene_invariant (animate now w).
Proof.
  intros (Htags & Hp & Hk & (m & Hm & Hz) & Hs). unfold scene_invariant.
  rewrite animate_tags, animate_particles, animate_keyLight,
    animate_currentSection, animate_lookup, Hm. simpl.
  repeat split; try done.
  eexists. split; [done|]. by rewrite animate_mesh_ez.
Qed.

Lemma runCallback_invariant (now : Z) (cb : Callback) (w : World) :
  scene_invariant w -> scene_invariant (runCallback now cb w).
Proof.
  destruct cb; simpl; auto using animateCamera_invariant, animate_invariant.
Qed.

Lemma callbacks_invariant (now : Z) (q : list Callback) (w : World) :
  scene_invariant w ->
  scene_invariant (foldl (fun w cb => runCallback now cb w) w q).
Proof.
  revert w. induction q as [|cb q IH]; intros w H; simpl; [done|].
  by apply IH, runCallback_invariant.
Qed.

Lemma callbacks_pending (now : Z) (q : list Callback) (w : World) :
  filter (.= CbAnimate)
    (frameCallbacks (foldl (fun w cb => runCallback now cb w) w q)) =
  filter (.= CbAnimate) (frameCallbacks w) ++ filter (.= CbAnimate) q.
Proof.
  revert w. induction q as [|cb q IH]; intros w; simpl.
  - by rewrite app_nil_r.
  - rewrite IH. destruct cb as [t|].
    + change (runCallback now (CbAnimateCamera t) w)
        with (animateCamera t w).
      by rewrite animateCamera_pending, filter_cons_False.
    + change (runCallback now CbAnimate w) with (animate now w).
      rewrite animate_pending, filter_cons_True by done.
      by rewrite <- app_assoc.
Qed.

Lemma frame_invariant (now : Z) (w : World) :
  scene_invariant w -> scene_invariant (frame now w).
Proof. intros H. unfold frame. by apply callbacks_invariant. Qed.

Lemma frame_pending (now : Z) (w : World) :
  one_animate_pending w -> one_animate_pending (frame now w).
Proof.
  unfold one_animate_pending, frame. intros H.
  by rewrite callbacks_pending.
Qed.

Lemma cameraEffect_navItem (w : World) :
  currentSection w ∈ navItems ->
  exists c, resolve_targetConfig (currentSection w) = JSConfig c
    /\ cameraEffect w =
         Normal (animateCamera
                   (mkTransition c (cam_position (camera w)) (cfg_position c)
                                 0) w).
Proof.
  intros H. destruct (navItems_recognized _ H) as [c Hc].
  exists c. split; [done|]. by apply cameraEffect_resolved.
Qed.

(** Navigation to one of the six sections succeeds. *)
Lemma handleNavigation_navItem (s : string) (w : World) :
  s ∈ navItems -> scene_invariant w -> one_animate_pending w ->
  exists w', handleNavigation s w = Normal w'
    /\ scene_invariant w' /\ one_animate_pending w'
    /\ currentSection w' = s
    /\ navigationObjects w' = navigationObjects w
    /\ mouse w' = mouse w.
Proof.
  intros Hs Hinv Hpend. unfold handleNavigation, setCurrentSection, rerender.
  destruct (String.eqb s (currentSection w)) eqn:E.
  - exists w. apply String.eqb_eq in E. done.
  - simpl currentSection. rewrite String.eqb_sym, E.
    set (w1 := set_mountedPanels _ _).
    assert (scene_invariant w1) as Hinv1.
    { destruct Hinv as (? & ? & ? & ? & ?). by repeat split. }
    destruct (cameraEffect_navItem w1) as (c & _ & ->); [done|].
    eexists. split; [done|].
    destruct (animateCamera_frame
                (mkTransition c (cam_position (camera w1)) (cfg_position c) 0)
                w1) as (-> & _ & _ & _ & -> & _).
    split; [by apply animateCamera_invariant|].
    split; [by unfold one_animate_pending; rewrite animateCamera_pending|].
    by rewrite animateCamera_currentSection.
Qed.

Lemma build_tags :
  Forall (fun u => section u ∈ object_sections /\ section u <> "")
         (userData <$> build_navigationObjects).
Proof. by_evaluation. Qed.

Lemma object_sections_navItems (s : string) :
  s ∈ object_sections -> s ∈ navItems.
Proof.
  unfold object_sections, navItems. rewrite !elem_of_cons, !elem_of_nil.
  tauto.
Qed.

Lemma invariant_tag (w : World) (k : nat) (m : Mesh) :
  scene_invariant w -> navigationObjects w !! k = Some m ->
  section (userData m) ∈ object_sections /\ section (userData m) <> "".
Proof.
  intros (Htags & _) Hk.
  assert (userData m ∈ userData <$> navigationObjects w) as Hin.
  { apply list_elem_of_fmap. exists m. split; [done|].
    by eapply list_elem_of_lookup_2. }
  rewrite Htags in Hin.
  exact (proj1 (list.Forall_forall _ _) build_tags _ Hin).
Qed.

(** The three outcomes of a click, on a state that satisfies the
    invariant. *)
Lemma click_outcome (w : World) :
  scene_invariant w ->
  match intersectObjects (mouse w) (camera w) (navigationObjects w) with
  | [] => click w = Normal w
  | hit :: _ =>
      exists m, navigationObjects w !! object hit = Some m
        /\ section (userData m) ∈ object_sections
        /\ click w = handleNavigation (section (userData m)) w
  end.
Proof.
  intros Hinv. unfold click, handleClick.
  destruct (intersectObjects _ _ _) as [|hit rest] eqn:E; [done|].
  destruct (intersectObjects_head _ _ _ _ _ E) as [(m & Hm & _) _].
  destruct (invariant_tag w _ m Hinv Hm) as [Hsec Hne].
  exists m. rewrite Hm. repeat split; try done.
  unfold truthy_string. by rewrite (proj2 (String.eqb_neq _ _) Hne).
Qed.

Lemma click_invariant (w : World) :
  scene_invariant w -> one_animate_pending w ->
  exists w', click w = Normal w'
    /\ scene_invariant w' /\ one_animate_pending w'
    /\ navigationObjects w' = navigationObjects w.
Proof.
  intros Hinv Hpend. pose proof (click_outcome w Hinv) as H.
  destruct (intersectObjects _ _ _) as [|hit rest].
  - exists w. by rewrite H.
  - destruct H as (m & _ & Hsec & ->).
    destruct (handleNavigation_navItem (section (userData m)) w)
      as (w' & ? & ? & ? & ? & ? & ?);
      [by apply object_sections_navItems|done|done|].
    by exists w'.
Qed.

Lemma dockClick_invariant (item : nat) (w : World) :
  scene_invariant w -> one_animate_pending w ->
  exists w', dockClick item w = Normal w'
    /\ scene_invariant w' /\ one_animate_pending w'
    /\ navigationObjects w' = navigationObjects w.
Proof.
  intros Hinv Hpend. unfold dockClick.
  destruct (navItems !! item) as [id|] eqn:E; [|by exists w].
  destruct (handleNavigation_navItem id w)
    as (w1 & -> & Hinv1 & Hpend1 & _ & Hobj & _);
    [by eapply list_elem_of_lookup_2|done|done|].
  simpl. destruct (click_invariant w1 Hinv1 Hpend1)
    as (w2 & -> & ? & ? & Hobj2).
  exists w2. split; [done|]. split; [done|]. split; [done|]. congruence.
Qed.

(** Every event is handled without an exception, and the invariant is
    kept. *)
Lemma step_invariant (e : Event) (w : World) :
  scene_invariant w -> one_animate_pending w ->
  exists w', step e w = Normal w'
    /\ scene_invariant w' /\ one_animate_pending w'.
Proof.
  intros Hinv Hpend. destruct e as [now|cx cy iw ih| |item|iw ih]; simpl.
  - eexists. split; [done|]. split;
      [by apply frame_invariant|by apply frame_pending].
  - eexists. split; [done|]. split; [|done].
    destruct Hinv as (? & ? & ? & ? & ?). by repeat split.
  - destruct (click_invariant w Hinv Hpend) as (w' & ? & ? & ? & _). eauto.
  - destruct (dockClick_invariant item w Hinv Hpend)
      as (w' & ? & ? & ? & _). eauto.
  - eexists. split; [done|]. split; [|done].
    destruct Hinv as (? & ? & ? & ? & ?). by repeat split.
Qed.

Lemma run_invariant (events : list Event) (w : World) :
  scene_invariant w -> one_animate_pending w ->
  exists w', run events w = Normal w'
    /\ scene_invariant w' /\ one_animate_pending w'.
Proof.
  revert w. induction events as [|e events IH]; intros w Hinv Hpend; simpl.
  - by exists w.
  - destruct (step_invariant e w Hinv Hpend) as (w1 & -> & Hinv1 & Hpend1).
    simpl. by apply IH.
Qed.

Lemma initial_invariant (innerWidth innerHeight : Qc) :
  scene_invariant (initial_World innerWidth innerHeight).
Proof.
  unfold scene_invariant. simpl. repeat split; try done.
  - by exists core_mesh.
  - by left.
Qed.

Lemma mount_invariant (innerWidth innerHeight : Qc) (now : Z) :
  exists w, mount innerWidth innerHeight now = Normal w
    /\ scene_invariant w /\ one_animate_pending w.
Proof.
  unfold mount.
  destruct (cameraEffect_navItem (initial_World innerWidth innerHeight))
    as (c & _ & ->); [by left|].
  simpl. eexists. split; [done|]. split.
  - apply animate_invariant, animateCamera_invariant, initial_invariant.
  - unfold one_animate_pending.
    by rewrite animate_pending, animateCamera_pending.
Qed.

Lemma reachable_invariant (w : World) :
  reachable w -> scene_invariant w /\ one_animate_pending w.
Proof.
  intros (iw & ih & now & events & H).
  destruct (mount_invariant iw ih now) as (w0 & Hm & Hinv & Hpend).
  rewrite Hm in H. simpl in H.
  destruct (run_invariant events w0 Hinv Hpend) as (w' & Hr & ? & ?).
  rewrite Hr in H. by injection H as <-.
Qed.

Lemma reachable_step (e : Event) (w w' : World) :
  reachable w -> step e w = Normal w' -> reachable w'.
Proof.
  intros (iw & ih & now & events & H) Hs.
  exists iw, ih, now, (events ++ [e]).
  destruct (mount iw ih now) as [w0|]; [|done]. simpl in *.
  revert w0 H. induction events as [|e' events IH]; intros w0 H; simpl in *.
  - injection H as ->. by rewrite Hs.
  - destruct (step e' w0) as [w1|]; [|done]. simpl in *. by apply IH.
Qed.

(** ** Clicks and the navigation state *)

(** C5.  A click whose ray crosses no navigable mesh returns normally and
    leaves the whole state unchanged: the navigation state, the mounted
    panels, the camera and the pending callbacks.  A click whose ray crosses
    one returns normally with the section tag of the first hit as the
    navigation state. *)
Theorem click_sets_section_of_first_hit (w : World) :
  reachable w ->
  match intersectObjects (mouse w) (camera w) (navigationObjects w) with
  | [] => click w = Normal w
  | hit :: _ =>
      exists m w', navigationObjects w !! object hit = Some m
        /\ click w = Normal w'
        /\ currentSection w' = section (userData m)
  end.
Proof.
  intros Hr. destruct (reachable_invariant w Hr) as [Hinv Hpend].
  pose proof (click_outcome w Hinv) as H.
  destruct (intersectObjects _ _ _) as [|hit rest]; [done|].
  destruct H as (m & Hm & Hsec & Hc).
  destruct (handleNavigation_navItem (section (userData m)) w)
    as (w' & Hn & _ & _ & Hs & _);
    [by apply object_sections_navItems|done|done|].
  exists m, w'. rewrite Hc. done.
Qed.

Lemma callbacks_currentSection (now : Z) (q : list Callback) (w : World) :
  currentSection (foldl (fun w cb => runCallback now cb w) w q) =
  currentSection w.
Proof.
  revert w. induction q as [|cb q IH]; intros w; simpl; [done|].
  rewrite IH. destruct cb; simpl.
  - apply animateCamera_currentSection.
  - apply animate_currentSection.
Qed.

Lemma frame_currentSection (now : Z) (w : World) :
  currentSection (frame now w) = currentSection w.
Proof. unfold frame. by rewrite callbacks_currentSection. Qed.



(** ** Decorative state *)

Lemma invariant_core_type (w : World) (m : Mesh) :
  scene_invariant w -> navigationObjects w !! core = Some m ->
  type (userData m) = "core".
Proof.
  intros (Htags & _) Hm.
  assert ((userData <$> navigationObjects w) !! core = Some (userData m))
    as H by (by rewrite list_lookup_fmap, Hm).
  rewrite Htags in H. by injection H as <-.
Qed.

Lemma animate_decor (now : Z) (w : World) :
  scene_invariant w -> decor (animate now w) = decor_at now.
Proof.
  intros Hinv. pose proof Hinv as (_ & Hp & Hk & (m & Hm & Hz) & _).
  pose proof (invariant_core_type w m Hinv Hm) as Htype.
  unfold decor, decor_at.
  rewrite animate_particles, animate_keyLight, animate_rimLight,
    animate_lookup, Hm, Hp, Hk. simpl. f_equal. f_equal.
  unfold animate_mesh, rotate_navigationObject, animate_core.
  destruct (first_hit_is _ _); simpl; rewrite Htype; simpl; by rewrite Hz.
Qed.

Lemma animateCamera_decor (t : Transition) (w : World) :
  decor (animateCamera t w) = decor w.
Proof.
  unfold decor. by destruct (animateCamera_frame t w) as (-> & -> & -> & -> & _).
Qed.

Lemma callbacks_decor (now : Z) (q : list Callback) (w : World) :
  scene_invariant w ->
  decor w = decor_at now \/ CbAnimate ∈ q ->
  decor (foldl (fun w cb => runCallback now cb w) w q) = decor_at now.
Proof.
  revert w. induction q as [|cb q IH]; intros w Hinv H.
  - destruct H as [H | H]; [done|]. by apply elem_of_nil in H.
  - change (decor (foldl (fun w cb => runCallback now cb w)
                         (runCallback now cb w) q) = decor_at now).
    destruct cb as [t|].
    + change (runCallback now (CbAnimateCamera t) w)
        with (animateCamera t w).
      apply IH; [by apply animateCamera_invariant|].
      rewrite animateCamera_decor. destruct H as [H | H]; [by left|].
      right. by apply elem_of_cons in H as [|].
    + change (runCallback now CbAnimate w) with (animate now w).
      apply IH; [by apply animate_invariant|]. left.
      by apply animate_decor.
Qed.

Lemma pending_elem (w : World) :
  one_animate_pending w -> CbAnimate ∈ frameCallbacks w.
Proof.
  unfold one_animate_pending. intros H.
  assert (CbAnimate ∈ filter (.= CbAnimate) (frameCallbacks w)) as Hin
    by (rewrite H; by left).
  by apply list_elem_of_filter in Hin as [_ ?].
Qed.

(** C3.  After a display refresh at time [now], the rotation of the
    particle field, the rotation of the core, the position of the key light
    and the intensity of the rim light are the values [decor_at now], which
    mention the time and nothing else; two pages with different histories
    refreshed at the same time agree on them. *)
Theorem decor_function_of_time (now : Z) (w : World) :
  reachable w ->
  decor (frame now w) = decor_at now
  /\ (forall w2, reachable w2 -> decor (frame now w2) = decor (frame now w)).
Proof.
  assert (forall v, reachable v -> decor (frame now v) = decor_at now) as H.
  { intros v Hr. destruct (reachable_invariant v Hr) as [Hinv Hpend].
    unfold frame. apply callbacks_decor.
    - destruct Hinv as (? & ? & ? & ? & ?). by repeat split.
    - right. by apply pending_elem. }
  intros Hr. split; [by apply H|].
  intros w2 Hr2. by rewrite !H.
Qed.

(** ** Rotation of the navigable meshes *)

(** ** Rotation of the navigable meshes *)

Lemma Qc_of_Z_succ (n : Z) : Qc_of_Z (Z.succ n) = Qc_of_Z n + 1.
Proof.
  apply Qc_is_canon. rewrite this_plus. simpl.
  rewrite <- Z.add_1_r, inject_Z_plus. reflexivity.
Qed.

Lemma Qc_of_Z_0 : Qc_of_Z 0 = 0.
Proof. by apply Qc_is_canon. Qed.










(** ** Hover scale *)

(** The scale of a mesh after one call of [animate]: every mesh is moved
    toward scale 1, and the first hit of the hover test is then moved toward
    scale 1.2 from there. *)
Lemma animate_scale (now : Z) (w : World) (k : nat) (m : Mesh) :
  navigationObjects w !! k = Some m ->
  exists m', navigationObjects (animate now w) !! k = Some m'
    /\ scale m' =
         if first_hit_is (hover_intersects now w) k
         then lerp (lerp (scale m) (mkVector3 1 1 1) 0.1)
                   (mkVector3 1.2 1.2 1.2) 0.1
         else lerp (scale m) (mkVector3 1 1 1) 0.1.
Proof.
  intros Hk. rewrite animate_lookup, Hk. eexists. split; [done|].
  unfold animate_mesh, rotate_navigationObject, animate_core.
  destruct (bool_decide (core = k)), (first_hit_is _ _); simpl;
    by destruct (negb _).
Qed.

(** Two smoothing steps, toward 1 and then toward 1.2, on one number. *)
Lemma hover_coordinate (s : Qc) :
  (s + (1 - s) * 0.1) + (1.2 - (s + (1 - s) * 0.1)) * 0.1
  = 0.81 * s + 0.21.
Proof. apply Qc_is_canon. to_fractions. field. Qed.

(** A hovered mesh at scale 1.2 does not stay there: each call of [animate]
    takes it away from 1.2, and 21/19 is the scale it rests at. *)
Lemma hover_rest_scale (s : Qc) :
  (s + (1 - s) * 0.1) + (1.2 - (s + (1 - s) * 0.1)) * 0.1 = s
  <-> s = Q2Qc (21 # 19).
Proof.
  rewrite hover_coordinate. split.
  - intros H. apply Qc_is_canon. apply (f_equal this) in H.
    assert (this (0.81 * s + 0.21) == this s)%Q as H' by (by rewrite H).
    to_fractions. lra.
  - intros ->. by_evaluation.
Qed.

(** ** Transitions are never cancelled *)

(** A navigation request leaves every pending callback registered. *)
Lemma handleNavigation_keeps_callbacks (s : string) (w w' : World) :
  handleNavigation s w = Normal w' ->
  frameCallbacks w `prefix_of` frameCallbacks w'.
Proof.
  unfold handleNavigation, setCurrentSection, rerender.
  destruct (String.eqb s (currentSection w)); [by intros [= <-]|].
  destruct (String.eqb _ _); [by intros [= <-]|].
  unfold cameraEffect. destruct (resolve_targetConfig _); try done.
  intros [= <-]. unfold animateCamera.
  destruct (bool_decide _); simpl; [by apply prefix_app_r|done].
Qed.

(** A pending callback of a transition writes the camera when its turn
    comes, whatever was registered after it. *)
Lemma pending_transition_moves_camera (now : Z) (w : World)
    (before : list Callback) (t : Transition) :
  progress t + 0.02 ≤ 1 ->
  cam_position
    (camera (foldl (fun w cb => runCallback now cb w) w
                   (before ++ [CbAnimateCamera t])))
  = lerpVectors (startPosition t) (targetPosition t)
                (easing (progress t + 0.02)).
Proof.
  intros H. rewrite foldl_app.
  change (foldl (fun w cb => runCallback now cb w) ?v [CbAnimateCamera t])
    with (animateCamera t v).
  by rewrite animateCamera_running.
Qed.

(** ** Induction on the states of the page *)

Lemma mount_reachable (innerWidth innerHeight : Qc) (now : Z) (w : World) :
  mount innerWidth innerHeight now = Normal w -> reachable w.
Proof.
  intros H. exists innerWidth, innerHeight, now, []. by rewrite H.
Qed.

Lemma reachable_run (events : list Event) (w w' : World) :
  reachable w -> run events w = Normal w' -> reachable w'.
Proof.
  revert w. induction events as [|e events IH]; intros w Hr H.
  - by injection H as <-.
  - change (run (e :: events) w) with (w1 ← step e w; run events w1) in H.
    destruct (step e w) as [w1|] eqn:E; [|done].
    apply (IH w1); [by eapply reachable_step|done].
Qed.

(** A property that holds after the mount and is kept by every event that
    is handled holds in every state of the page. *)
Lemma reachable_induction (P : World -> Prop) :
  (forall innerWidth innerHeight now w,
      mount innerWidth innerHeight now = Normal w -> P w) ->
  (forall e w w', reachable w -> P w -> step e w = Normal w' -> P w') ->
  forall w, reachable w -> P w.
Proof.
  intros Hmount Hstep w (iw & ih & now & events & H).
  destruct (mount iw ih now) as [w0|] eqn:E; [|done].
  change (run events w0 = Normal w) in H.
  pose proof (mount_reachable _ _ _ _ E) as Hr.
  pose proof (Hmount _ _ _ _ E) as HP. clear E.
  revert w0 H Hr HP. induction events as [|e events IH]; intros w0 H Hr HP.
  - by injection H as <-.
  - change (run (e :: events) w0) with (w1 ← step e w0; run events w1) in H.
    destruct (step e w0) as [w1|] eqn:E; [|done].
    apply (IH w1); [done|by eapply reachable_step|by eapply Hstep].
Qed.

(** X3.  From a state of the page, every sequence of display refreshes,
    pointer moves, clicks, dock clicks and resizes is handled to the end
    without an exception, and leads to a state of the page. *)
Theorem events_never_throw (events : list Event) (w : World) :
  reachable w ->
  exists w', run events w = Normal w' /\ reachable w'.
Proof.
  intros Hr. destruct (reachable_invariant w Hr) as [Hinv Hpend].
  destruct (run_invariant events w Hinv Hpend) as (w' & H & _).
  exists w'. split; [done|]. by apply (reachable_run events w).
Qed.

(** ** What only its own handler writes *)

Lemma animateCamera_aspect (t : Transition) (w : World) :
  cam_aspect (camera (animateCamera t w)) = cam_aspect (camera w).
Proof. unfold animateCamera. by destruct (bool_decide _). Qed.

Lemma callbacks_pointer_aspect (now : Z) (q : list Callback) (w : World) :
  mouse (foldl (fun w cb => runCallback now cb w) w q) = mouse w
  /\ cam_aspect (camera (foldl (fun w cb => runCallback now cb w) w q))
     = cam_aspect (camera w)
  /\ mountedPanels (foldl (fun w cb => runCallback now cb w) w q)
     = mountedPanels w.
Proof.
  revert w. induction q as [|cb q IH]; intros w; [done|].
  change (foldl (fun w cb => runCallback now cb w) w (cb :: q))
    with (foldl (fun w cb => runCallback now cb w) (runCallback now cb w) q).
  destruct (IH (runCallback now cb w)) as (-> & -> & ->).
  destruct cb as [t|].
  - change (runCallback now (CbAnimateCamera t) w) with (animateCamera t w).
    rewrite animateCamera_aspect.
    by destruct (animateCamera_frame t w) as (_ & _ & _ & _ & -> & -> & _).
  - change (runCallback now CbAnimate w) with (animate now w).
    by rewrite animate_mouse, animate_camera, animate_mountedPanels.
Qed.

Lemma cameraEffect_pointer_aspect (w w' : World) :
  cameraEffect w = Normal w' ->
  mouse w' = mouse w /\ cam_aspect (camera w') = cam_aspect (camera w)
  /\ navigationObjects w' = navigationObjects w.
Proof.
  unfold cameraEffect. destruct (resolve_targetConfig _); try done.
  intros [= <-]. rewrite animateCamera_aspect.
  by destruct (animateCamera_frame
                 (mkTransition c (cam_position (camera w)) (cfg_position c) 0)
                 w) as (-> & _ & _ & _ & -> & _).
Qed.

Lemma handleNavigation_pointer_aspect (s : string) (w w' : World) :
  handleNavigation s w = Normal w' ->
  mouse w' = mouse w /\ cam_aspect (camera w') = cam_aspect (camera w)
  /\ navigationObjects w' = navigationObjects w.
Proof.
  unfold handleNavigation, setCurrentSection, rerender.
  destruct (String.eqb s (currentSection w)); [by intros [= <-]|].
  destruct (String.eqb _ _); [by intros [= <-]|].
  intros H. by apply cameraEffect_pointer_aspect in H.
Qed.

Lemma click_pointer_aspect (w w' : World) :
  click w = Normal w' ->
  mouse w' = mouse w /\ cam_aspect (camera w') = cam_aspect (camera w)
  /\ navigationObjects w' = navigationObjects w.
Proof.
  unfold click, handleClick.
  destruct (intersectObjects _ _ _) as [|hit rest]; [by intros [= <-]|].
  destruct (navigationObjects w !! object hit) as [m|]; [|done].
  destruct (truthy_string _); [|by intros [= <-]].
  apply handleNavigation_pointer_aspect.
Qed.

Lemma dockClick_pointer_aspect (item : nat) (w w' : World) :
  dockClick item w = Normal w' ->
  mouse w' = mouse w /\ cam_aspect (camera w') = cam_aspect (camera w)
  /\ navigationObjects w' = navigationObjects w.
Proof.
  unfold dockClick. destruct (navItems !! item) as [id|];
    [|by intros [= <-]].
  destruct (handleNavigation id w) as [w1|] eqn:E; [|done].
  change (click w1 = Normal w' ->
          mouse w' = mouse w /\ cam_aspect (camera w') = cam_aspect (camera w)
          /\ navigationObjects w' = navigationObjects w).
  intros H. apply click_pointer_aspect in H as (-> & -> & ->).
  by apply handleNavigation_pointer_aspect in E.
Qed.

(** X10.  After any events that are handled to the end, the aspect ratio
    of the camera is the one of the last resize, and the pointer is the one
    of the last mouse move, each unchanged when there was none: display
    refreshes, camera transitions, clicks and dock clicks write neither. *)
Theorem pointer_and_aspect_have_one_writer (events : list Event)
    (w w' : World) :
  run events w = Normal w' ->
  cam_aspect (camera w') = aspect_after events (cam_aspect (camera w))
  /\ mouse w' = pointer_after events (mouse w).
Proof.
  revert w. induction events as [|e events IH]; intros w H.
  - by injection H as <-.
  - change (run (e :: events) w) with (w1 ← step e w; run events w1) in H.
    destruct (step e w) as [w1|] eqn:E; [|done].
    destruct (IH w1 H) as [-> ->].
    destruct e as [now|cx cy iw ih| |item|iw ih]; simpl in E |- *.
    + injection E as <-. unfold frame.
      by destruct (callbacks_pointer_aspect now (frameCallbacks w)
                     (set_frameCallbacks w [])) as (-> & -> & _).
    + by injection E as <-.
    + by apply click_pointer_aspect in E as (-> & -> & _).
    + by apply dockClick_pointer_aspect in E as (-> & -> & _).
    + by injection E as <-.
Qed.

(** ** One render for each display refresh *)

Lemma callbacks_rendered (now : Z) (q : list Callback) (w : World) :
  exists cams,
    rendered (foldl (fun w cb => runCallback now cb w) w q)
      = cams ++ rendered w
    /\ length cams = length (filter (.= CbAnimate) q).
Proof.
  revert w. induction q as [|cb q IH]; intros w; [by exists []|].
  change (foldl (fun w cb => runCallback now cb w) w (cb :: q))
    with (foldl (fun w cb => runCallback now cb w) (runCallback now cb w) q).
  destruct (IH (runCallback now cb w)) as (cams & -> & Hlen).
  destruct cb as [t|].
  - change (runCallback now (CbAnimateCamera t) w) with (animateCamera t w).
    exists cams. rewrite filter_cons_False by done.
    by destruct (animateCamera_frame t w) as (_ & _ & _ & _ & _ & _ & ->).
  - change (runCallback now CbAnimate w) with (animate now w).
    exists (cams ++ [camera w]). rewrite animate_rendered.
    rewrite filter_cons_True by done. split.
    + by rewrite <- app_assoc.
    + rewrite length_app, Hlen. simpl. lia.
Qed.

(** X4.  In every state of the page exactly one call of [animate] is
    pending, so a display refresh renders the scene once, not more and not
    less, and leaves exactly one call of [animate] pending again. *)
Theorem one_render_per_refresh (now : Z) (w : World) :
  reachable w ->
  filter (.= CbAnimate) (frameCallbacks w) = [CbAnimate]
  /\ (exists cam, rendered (frame now w) = cam :: rendered w)
  /\ filter (.= CbAnimate) (frameCallbacks (frame now w)) = [CbAnimate].
Proof.
  intros Hr. destruct (reachable_invariant w Hr) as [_ Hpend].
  split; [exact Hpend|]. split; [|by apply frame_pending].
  unfold frame.
  destruct (callbacks_rendered now (frameCallbacks w)
              (set_frameCallbacks w [])) as (cams & -> & Hlen).
  unfold one_animate_pending in Hpend. rewrite Hpend in Hlen.
  destruct cams as [|cam [|? ?]]; try done. by exists cam.
Qed.

(** ** The meshes of the scene *)




(** Events other than a display refresh leave the meshes as they are. *)
Lemma step_keeps_navigationObjects (e : Event) (w w' : World) :
  (forall now, e <> Frame now) -> step e w = Normal w' ->
  navigationObjects w' = navigationObjects w.
Proof.
  intros Hf H. destruct e as [now|cx cy iw ih| |item|iw ih]; simpl in H.
  - by destruct (Hf now).
  - by injection H as <-.
  - by apply click_pointer_aspect in H as (_ & _ & ->).
  - by apply dockClick_pointer_aspect in H as (_ & _ & ->).
  - by injection H as <-.
Qed.


Lemma mount_navigationObjects (innerWidth innerHeight : Qc) (now : Z)
    (w : World) :
  mount innerWidth innerHeight now = Normal w ->
  exists w0, navigationObjects w0 = build_navigationObjects
    /\ navigationObjects w = navigationObjects (animate now w0).
Proof.
  unfold mount. destruct (cameraEffect _) as [w0|] eqn:E; [|done].
  intros [= <-]. exists w0. split; [|done].
  by apply cameraEffect_pointer_aspect in E as (_ & _ & ->).
Qed.


(** ** Bounds on the scale *)

Lemma smoothing_toward_1_bounds (s : Qc) :
  1 ≤ s -> s ≤ Q2Qc (21 # 19) ->
  1 ≤ s + (1 - s) * 0.1 /\ s + (1 - s) * 0.1 ≤ Q2Qc (21 # 19).
Proof. intros. to_fractions. split; lra. Qed.

Lemma hovered_bounds (s : Qc) :
  1 ≤ s -> s ≤ Q2Qc (21 # 19) ->
  1 ≤ (s + (1 - s) * 0.1) + (1.2 - (s + (1 - s) * 0.1)) * 0.1
  /\ (s + (1 - s) * 0.1) + (1.2 - (s + (1 - s) * 0.1)) * 0.1
     ≤ Q2Qc (21 # 19).
Proof. intros. to_fractions. split; lra. Qed.

Lemma animate_mesh_scale time c h m :
  scale (animate_mesh time c h m) =
    if h then lerp (lerp (scale m) (mkVector3 1 1 1) 0.1)
                   (mkVector3 1.2 1.2 1.2) 0.1
    else lerp (scale m) (mkVector3 1 1 1) 0.1.
Proof.
  unfold animate_mesh, rotate_navigationObject, animate_core.
  destruct c, h; simpl; by destruct (negb _).
Qed.

Lemma animate_mesh_uniform_scale time c h m :
  uniform_scale 1 (Q2Qc (21 # 19)) m ->
  uniform_scale 1 (Q2Qc (21 # 19)) (animate_mesh time c h m).
Proof.
  unfold uniform_scale. rewrite animate_mesh_scale.
  intros (Hxy & Hyz & Hlo & Hhi).
  destruct h; simpl; rewrite <- Hyz, <- Hxy.
  - split; [done|]. split; [done|]. by apply hovered_bounds.
  - split; [done|]. split; [done|]. by apply smoothing_toward_1_bounds.
Qed.

Lemma animate_uniform_scale (now : Z) (w : World) :
  Forall (uniform_scale 1 (Q2Qc (21 # 19))) (navigationObjects w) ->
  Forall (uniform_scale 1 (Q2Qc (21 # 19)))
         (navigationObjects (animate now w)).
Proof.
  rewrite !Forall_lookup. intros H k m'. rewrite animate_lookup.
  destruct (navigationObjects w !! k) as [m|] eqn:E; [|done].
  intros [= <-]. apply animate_mesh_uniform_scale. by eapply H.
Qed.

Lemma callbacks_uniform_scale (now : Z) (q : list Callback) (w : World) :
  Forall (uniform_scale 1 (Q2Qc (21 # 19))) (navigationObjects w) ->
  Forall (uniform_scale 1 (Q2Qc (21 # 19)))
    (navigationObjects (foldl (fun w cb => runCallback now cb w) w q)).
Proof.
  revert w. induction q as [|cb q IH]; intros w H; [done|].
  change (foldl (fun w cb => runCallback now cb w) w (cb :: q))
    with (foldl (fun w cb => runCallback now cb w) (runCallback now cb w) q).
  apply IH. destruct cb as [t|].
  - change (runCallback now (CbAnimateCamera t) w) with (animateCamera t w).
    by destruct (animateCamera_frame t w) as (-> & _).
  - by apply animate_uniform_scale.
Qed.

Lemma build_uniform_scale :
  Forall (uniform_scale 1 (Q2Qc (21 # 19))) build_navigationObjects.
Proof. by_evaluation. Qed.

Lemma reachable_uniform_scale (w : World) :
  reachable w ->
  Forall (uniform_scale 1 (Q2Qc (21 # 19))) (navigationObjects w).
Proof.
  revert w. apply reachable_induction.
  - intros iw ih now w Hm.
    destruct (mount_navigationObjects _ _ _ _ Hm) as (w0 & H0 & ->).
    apply animate_uniform_scale. rewrite H0. apply build_uniform_scale.
  - intros e w w' _ IH Hs.
    assert ((exists now, e = Frame now) \/ (forall now, e <> Frame now))
      as [[now ->] | Hf].
    { destruct e; eauto; right; intros ? [=]. }
    + injection Hs as <-. unfold frame. by apply callbacks_uniform_scale.
    + by rewrite (step_keeps_navigationObjects e w w' Hf Hs).
Qed.

(** X6.  In every state of the page every navigable mesh has the same
    scale on its three axes, and that scale is at least 1 and at most 21/19,
    hence below 1.2: hovering never shrinks a mesh below the size it was
    built with, never distorts it, and never enlarges it by as much as a
    fifth. *)
Theorem scale_stays_uniform_and_bounded (w : World) :
  reachable w ->
  Forall (uniform_scale 1 (Q2Qc (21 # 19))) (navigationObjects w)
  /\ Q2Qc (21 # 19) < 1.2.
Proof.
  intros Hr. split; [by apply reachable_uniform_scale|by_evaluation].
Qed.

(** ** The panel on display *)

Lemma cameraEffect_mountedPanels (w w' : World) :
  cameraEffect w = Normal w' -> mountedPanels w' = mountedPanels w.
Proof.
  unfold cameraEffect. destruct (resolve_targetConfig _); try done.
  intros [= <-].
  by destruct (animateCamera_frame
                 (mkTransition c (cam_position (camera w)) (cfg_position c) 0)
                 w) as (_ & _ & _ & _ & _ & -> & _).
Qed.

Lemma handleNavigation_panel (s : string) (w w' : World) :
  handleNavigation s w = Normal w' ->
  head (mountedPanels w) = Some (renderSection (currentSection w)) ->
  head (mountedPanels w') = Some (renderSection (currentSection w')).
Proof.
  unfold handleNavigation, setCurrentSection, rerender.
  destruct (String.eqb s (currentSection w)) eqn:E; [by intros [= <-]|].
  simpl currentSection. rewrite String.eqb_sym, E.
  intros H _. rewrite (cameraEffect_currentSection _ _ H).
  by rewrite (cameraEffect_mountedPanels _ _ H).
Qed.

Lemma click_panel (w w' : World) :
  click w = Normal w' ->
  head (mountedPanels w) = Some (renderSection (currentSection w)) ->
  head (mountedPanels w') = Some (renderSection (currentSection w')).
Proof.
  unfold click, handleClick.
  destruct (intersectObjects _ _ _) as [|hit rest]; [by intros [= <-]|].
  destruct (navigationObjects w !! object hit) as [m|]; [|done].
  destruct (truthy_string _); [|by intros [= <-]].
  apply handleNavigation_panel.
Qed.

Lemma renderSection_distinct (s s' : string) :
  s ∈ navItems -> s' ∈ navItems ->
  renderSection s = renderSection s' -> s = s'.
Proof.
  unfold navItems. rewrite !elem_of_cons, !elem_of_nil.
  intros [-> | [-> | [-> | [-> | [-> | [-> | []]]]]]]
         [-> | [-> | [-> | [-> | [-> | [-> | []]]]]]]; by vm_compute.
Qed.

(** X7.  In every state of the page the navigation state is one of the six
    sections and the panel mounted last is the panel of that section; the
    six sections have six different panels, so exactly the panel of the
    current section is on display. *)
Theorem panel_matches_section (w : World) :
  reachable w ->
  currentSection w ∈ navItems
  /\ head (mountedPanels w) = Some (renderSection (currentSection w))
  /\ (forall s, s ∈ navItems ->
                renderSection s = renderSection (currentSection w) ->
                s = currentSection w).
Proof.
  intros Hr. pose proof (reachable_invariant w Hr) as [Hinv _].
  assert (currentSection w ∈ navItems) as Hnav
    by (by destruct Hinv as (_ & _ & _ & _ & ?)).
  split; [exact Hnav|]. split.
  - clear Hinv Hnav. revert w Hr. apply reachable_induction.
    + intros iw ih now w. unfold mount.
      destruct (cameraEffect _) as [w0|] eqn:E; [|done]. intros [= <-].
      rewrite animate_mountedPanels, animate_currentSection.
      rewrite (cameraEffect_currentSection _ _ E).
      by rewrite (cameraEffect_mountedPanels _ _ E).
    + intros e w w' _ IH Hs.
      destruct e as [now|cx cy iw ih| |item|iw ih]; simpl in Hs.
      * injection Hs as <-. rewrite frame_currentSection. unfold frame.
        by destruct (callbacks_pointer_aspect now (frameCallbacks w)
                       (set_frameCallbacks w [])) as (_ & _ & ->).
      * by injection Hs as <-.
      * by apply (click_panel w).
      * unfold dockClick in Hs.
        destruct (navItems !! item) as [id|]; [|by injection Hs as <-].
        destruct (handleNavigation id w) as [w1|] eqn:E; [|done].
        apply (click_panel w1); [exact Hs|].
        by apply (handleNavigation_panel id w).
      * by injection Hs as <-.
  - intros s Hs. by apply renderSection_distinct.
Qed.

(** ** Starting a transition *)

Lemma first_step_progress : (0 : Qc) + 0.02 = 0.02.
Proof. by_evaluation. Qed.

Lemma animateCamera_first_step (c : CameraConfig) (start : Vector3)
    (w : World) :
  animateCamera (mkTransition c start (cfg_position c) 0) w =
    requestAnimationFrame
      (CbAnimateCamera (mkTransition c start (cfg_position c) 0.02))
      (set_camera w
         (mkCamera (lerpVectors start (cfg_position c) (easing 0.02))
                   (Some (cfg_target c)) (cam_aspect (camera w)))).
Proof.
  rewrite animateCamera_running; simpl progress; rewrite first_step_progress;
    [done|by_evaluation].
Qed.

(** X1.  For a section identifier that is not the name of a member of
    [Object.prototype], the camera effect returns normally.  Its target is
    the pose [CAMERA_POSITIONS] maps the identifier to, and the home pose
    when it maps it to none.  The transition starts at the position the
    camera has; its first step is taken at once, so the camera is moved to
    the interpolation at the eased parameter of 0.02 and turned to the
    target, and one callback is registered after those pending. *)
Theorem cameraEffect_falls_back_to_home (w : World) :
  currentSection w ∉ Object_prototype ->
  let c := default home_pose (CAMERA_POSITIONS !! currentSection w) in
  exists w',
    cameraEffect w = Normal w'
    /\ cam_position (camera w') =
         lerpVectors (cam_position (camera w)) (cfg_position c) (easing 0.02)
    /\ cam_lookAt (camera w') = Some (cfg_target c)
    /\ frameCallbacks w' =
         frameCallbacks w ++
         [CbAnimateCamera
            (mkTransition c (cam_position (camera w)) (cfg_position c) 0.02)].
Proof.
  intros H c. rewrite (cameraEffect_total w H). fold c.
  rewrite animateCamera_first_step. eexists. by repeat split.
Qed.


(** ** Pointer coordinates *)

Lemma this_inv (a : Qc) : (this (/ a) == / this a)%Q.
Proof. simpl. apply Qred_correct. Qed.

Lemma this_div (a b : Qc) : (this (a / b) == this a / this b)%Q.
Proof. unfold Qcdiv. rewrite this_mult, this_inv. reflexivity. Qed.

(** A part of a positive whole is a fraction between 0 and 1. *)
Lemma quotient_unit (a b : Qc) :
  0 < b -> 0 ≤ a -> a ≤ b -> 0 ≤ a / b /\ a / b ≤ 1.
Proof.
  intros Hb H0 H1. unfold Qclt, Qcle in *. rewrite this_div.
  to_fractions. split.
  - apply Qle_shift_div_l; [lra|lra].
  - apply Qle_shift_div_r; [lra|lra].
Qed.

(** X2.  For a pointer inside a window of positive width and height, the
    coordinates stored by [handleMouseMove] lie between -1 and 1 on both
    axes; the left edge gives x = -1 and the right edge x = 1, the top edge
    gives y = 1 and the bottom edge y = -1. *)
Theorem pointer_is_normalised (clientX clientY innerWidth innerHeight : Qc)
    (w : World) :
  0 < innerWidth -> 0 < innerHeight ->
  0 ≤ clientX -> clientX ≤ innerWidth ->
  0 ≤ clientY -> clientY ≤ innerHeight ->
  let m := mouse (handleMouseMove clientX clientY innerWidth innerHeight w) in
  (-1 ≤ x2 m /\ x2 m ≤ 1) /\ (-1 ≤ y2 m /\ y2 m ≤ 1)
  /\ (clientX = 0 -> x2 m = -1) /\ (clientX = innerWidth -> x2 m = 1)
  /\ (clientY = 0 -> y2 m = 1) /\ (clientY = innerHeight -> y2 m = -1).
Proof.
  intros Hw Hh Hx0 Hx1 Hy0 Hy1. simpl.
  destruct (quotient_unit clientX innerWidth Hw Hx0 Hx1) as [Ha0 Ha1].
  destruct (quotient_unit clientY innerHeight Hh Hy0 Hy1) as [Hb0 Hb1].
  assert (innerWidth <> 0) as Hwne by (intros ->; by apply Qclt_not_eq in Hw).
  assert (innerHeight <> 0) as Hhne
    by (intros ->; by apply Qclt_not_eq in Hh).
  split; [|split; [|split; [|split; [|split]]]].
  - set (a := clientX / innerWidth) in *. clearbody a.
    to_fractions. split; lra.
  - set (b := clientY / innerHeight) in *. clearbody b.
    to_fractions. split; lra.
  - intros ->. unfold Qcdiv. ring.
  - intros ->. unfold Qcdiv. rewrite Qcmult_inv_r by done. by_evaluation.
  - intros ->. unfold Qcdiv. ring.
  - intros ->. unfold Qcdiv. rewrite Qcmult_inv_r by done. by_evaluation.
Qed.

(** ** The pending camera transitions *)

Lemma animateCamera_pending_transitions (t : Transition) (w : World) :
  pending_transitions (animateCamera t w) =
  pending_transitions w ++ option_list (next_transition t).
Proof.
  unfold pending_transitions, animateCamera, next_transition.
  destruct (bool_decide _); simpl.
  - by rewrite omap_app.
  - by rewrite app_nil_r.
Qed.

Lemma animate_pending_transitions (now : Z) (w : World) :
  pending_transitions (animate now w) = pending_transitions w.
Proof.
  unfold pending_transitions. rewrite animate_frameCallbacks, omap_app.
  simpl. by rewrite app_nil_r.
Qed.

Lemma callbacks_pending_transitions (now : Z) (q : list Callback)
    (w : World) :
  pending_transitions (foldl (fun w cb => runCallback now cb w) w q) =
  pending_transitions w ++ omap next_transition (omap transition_of q).
Proof.
  revert w. induction q as [|cb q IH]; intros w.
  - simpl. by rewrite app_nil_r.
  - change (foldl (fun w cb => runCallback now cb w) w (cb :: q))
      with (foldl (fun w cb => runCallback now cb w)
                  (runCallback now cb w) q).
    rewrite IH. destruct cb as [t|].
    + change (runCallback now (CbAnimateCamera t) w)
        with (animateCamera t w).
      rewrite animateCamera_pending_transitions, <- app_assoc. simpl.
      by destruct (next_transition t).
    + change (runCallback now CbAnimate w) with (animate now w).
      by rewrite animate_pending_transitions.
Qed.

(** A display refresh advances every pending transition by one step and
    drops those past their end. *)
Lemma frame_pending_transitions (now : Z) (w : World) :
  pending_transitions (frame now w) =
  omap next_transition (pending_transitions w).
Proof. unfold frame. by rewrite callbacks_pending_transitions. Qed.

(** ** The camera stays in the box of the poses *)

Lemma easing_unit (p : Qc) : 0 ≤ p -> p ≤ 1 -> 0 ≤ easing p /\ easing p ≤ 1.
Proof.
  intros H0 H1. unfold easing, Math_pow3. simpl Qcpower.
  to_fractions.
  set (u := (1 - this p)%Q) in *.
  assert (0 <= u)%Q by (unfold u; lra).
  assert (u <= 1)%Q by (unfold u; lra).
  assert (0 <= u * u)%Q by nra.
  assert (u * u <= 1)%Q by nra.
  split; nra.
Qed.

Lemma lerp_coordinate_within (lo hi s d e : Qc) :
  lo ≤ s -> s ≤ hi -> lo ≤ d -> d ≤ hi -> 0 ≤ e -> e ≤ 1 ->
  lo ≤ s + (d - s) * e /\ s + (d - s) * e ≤ hi.
Proof. intros. to_fractions. split; nra. Qed.

Lemma lerpVectors_in_pose_box (s d : Vector3) (e : Qc) :
  in_pose_box s -> in_pose_box d -> 0 ≤ e -> e ≤ 1 ->
  in_pose_box (lerpVectors s d e).
Proof.
  intros ((? & ?) & (? & ?) & (? & ?)) ((? & ?) & (? & ?) & (? & ?)) He0 He1.
  unfold in_pose_box. simpl.
  split; [|split]; by apply lerp_coordinate_within.
Qed.

Lemma animateCamera_in_pose_box (t : Transition) (w : World) :
  in_pose_box (cam_position (camera w)) ->
  in_pose_box (startPosition t) -> in_pose_box (targetPosition t) ->
  0 ≤ progress t ->
  in_pose_box (cam_position (camera (animateCamera t w))).
Proof.
  intros Hc Hs Hd Hp. unfold animateCamera. case_bool_decide as H1; [|done].
  simpl. assert (0 ≤ progress t + 0.02) as H0 by (to_fractions; lra).
  apply lerpVectors_in_pose_box; try done; by apply easing_unit.
Qed.

Lemma transition_in_box_progress (t : Transition) :
  transition_in_box t -> 0 ≤ progress t.
Proof. intros (_ & _ & H & _). to_fractions. lra. Qed.

Lemma next_transition_in_box (t t' : Transition) :
  in_pose_box (startPosition t) -> in_pose_box (targetPosition t) ->
  0 ≤ progress t -> next_transition t = Some t' -> transition_in_box t'.
Proof.
  intros Hs Hd Hp. unfold next_transition. case_bool_decide as H1; [|done].
  intros [= <-]. unfold transition_in_box. simpl.
  split; [exact Hs|]. split; [exact Hd|]. split; [|exact H1].
  to_fractions. lra.
Qed.

Lemma callbacks_in_pose_box (now : Z) (q : list Callback) (w : World) :
  in_pose_box (cam_position (camera w)) ->
  Forall transition_in_box (omap transition_of q) ->
  in_pose_box
    (cam_position (camera (foldl (fun w cb => runCallback now cb w) w q))).
Proof.
  revert w. induction q as [|cb q IH]; intros w Hc Hq; [done|].
  change (foldl (fun w cb => runCallback now cb w) w (cb :: q))
    with (foldl (fun w cb => runCallback now cb w) (runCallback now cb w) q).
  destruct cb as [t|]; simpl in Hq.
  - apply list.Forall_cons in Hq as [Ht Hq].
    apply IH; [|done].
    change (runCallback now (CbAnimateCamera t) w) with (animateCamera t w).
    pose proof (transition_in_box_progress t Ht).
    destruct Ht as (? & ? & _). by apply animateCamera_in_pose_box.
  - apply IH; [|done].
    change (runCallback now CbAnimate w) with (animate now w).
    by rewrite animate_camera.
Qed.

Lemma frame_camera_invariant (now : Z) (w : World) :
  camera_invariant w -> camera_invariant (frame now w).
Proof.
  intros [Hc Hq]. split.
  - unfold frame. by apply callbacks_in_pose_box.
  - rewrite frame_pending_transitions. apply list.Forall_forall.
    intros t' Ht'. apply list_elem_of_omap in Ht' as (t & Ht & Hn).
    pose proof (proj1 (list.Forall_forall _ _) Hq t Ht) as Hbox.
    pose proof (transition_in_box_progress t Hbox).
    destruct Hbox as (? & ? & _). by eapply next_transition_in_box.
Qed.

Lemma navItems_pose_in_box (s : string) (c : CameraConfig) :
  s ∈ navItems -> resolve_targetConfig s = JSConfig c ->
  in_pose_box (cfg_position c).
Proof.
  unfold navItems. rewrite !elem_of_cons, elem_of_nil. intros H.
  repeat (destruct H as [-> | H];
          [vm_compute; intros [= <-]; by_evaluation|]).
  destruct H.
Qed.

Lemma cameraEffect_camera_invariant (w w' : World) :
  currentSection w ∈ navItems -> camera_invariant w ->
  cameraEffect w = Normal w' -> camera_invariant w'.
Proof.
  intros Hs [Hc Hq] H.
  destruct (cameraEffect_navItem w Hs) as (c & Hres & He).
  rewrite He in H. injection H as <-.
  pose proof (navItems_pose_in_box _ c Hs Hres) as Hbox.
  split.
  - apply animateCamera_in_pose_box; try done.
  - rewrite animateCamera_pending_transitions.
    apply list.Forall_app. split; [done|].
    destruct (next_transition _) as [t'|] eqn:E; [|constructor].
    apply list.Forall_singleton.
    by apply (next_transition_in_box _ t') in E.
Qed.

Lemma handleNavigation_camera_invariant (s : string) (w w' : World) :
  s ∈ navItems -> camera_invariant w ->
  handleNavigation s w = Normal w' -> camera_invariant w'.
Proof.
  intros Hs Hinv. unfold handleNavigation, setCurrentSection, rerender.
  destruct (String.eqb s (currentSection w)) eqn:E; [by intros [= <-]|].
  simpl currentSection. rewrite String.eqb_sym, E.
  by apply cameraEffect_camera_invariant.
Qed.

Lemma click_camera_invariant (w w' : World) :
  scene_invariant w -> camera_invariant w ->
  click w = Normal w' -> camera_invariant w'.
Proof.
  intros Hscene Hinv H. pose proof (click_outcome w Hscene) as Ho.
  destruct (intersectObjects _ _ _) as [|hit rest].
  - rewrite Ho in H. by injection H as <-.
  - destruct Ho as (m & _ & Hsec & Hc). rewrite Hc in H.
    eapply handleNavigation_camera_invariant; [|done|exact H].
    by apply object_sections_navItems.
Qed.

Lemma reachable_camera_invariant (w : World) :
  reachable w -> camera_invariant w.
Proof.
  revert w. apply reachable_induction.
  - intros iw ih now w. unfold mount.
    destruct (cameraEffect _) as [w0|] eqn:E; [|done]. intros [= <-].
    assert (camera_invariant w0) as [Hc Hq].
    { apply (cameraEffect_camera_invariant (initial_World iw ih));
        [by left| |done].
      split; [by_evaluation|constructor]. }
    split.
    + by rewrite animate_camera.
    + by rewrite animate_pending_transitions.
  - intros e w w' Hr IH Hs.
    destruct (reachable_invariant w Hr) as [Hscene Hpend].
    destruct e as [now|cx cy iw ih| |item|iw ih]; simpl in Hs.
    + injection Hs as <-. by apply frame_camera_invariant.
    + by injection Hs as <-.
    + by apply (click_camera_invariant w).
    + unfold dockClick in Hs.
      destruct (navItems !! item) as [id|] eqn:Eid;
        [|by injection Hs as <-].
      destruct (handleNavigation_navItem id w) as (w1 & E & Hscene1 & _);
        [by eapply list_elem_of_lookup_2|done|done|].
      rewrite E in Hs. apply (click_camera_invariant w1); [done| |exact Hs].
      eapply handleNavigation_camera_invariant; [|exact IH|exact E].
      by eapply list_elem_of_lookup_2.
    + by injection Hs as <-.
Qed.

(** X8.  In every state of the page the camera is inside the box spanned
    by the six poses: with x between -8 and 8, y between -6 and 8, and z
    between 8 and 20.  No transition overshoots its destination and none
    carries the camera through the origin, where the core is. *)
Theorem camera_stays_in_pose_box (w : World) :
  reachable w ->
  (-8 ≤ vx (cam_position (camera w)) /\ vx (cam_position (camera w)) ≤ 8)
  /\ (-6 ≤ vy (cam_position (camera w)) /\ vy (cam_position (camera w)) ≤ 8)
  /\ (8 ≤ vz (cam_position (camera w)) /\ vz (cam_position (camera w)) ≤ 20).
Proof. intros Hr. by destruct (reachable_camera_invariant w Hr). Qed.

(** ** Transitions come to an end *)

Lemma run_frames (nows : list Z) (w : World) :
  run (Frame <$> nows) w = Normal (foldl (fun w now => frame now w) w nows).
Proof.
  revert w. induction nows as [|now nows IH]; intros w; [done|].
  change (run (Frame <$> now :: nows) w)
    with (w1 ← step (Frame now) w; run (Frame <$> nows) w1).
  simpl. apply IH.
Qed.

Lemma Qc_of_Z_nat_succ (n : nat) :
  Qc_of_Z (Z.of_nat (S n)) * 0.02 = 0.02 + Qc_of_Z (Z.of_nat n) * 0.02.
Proof. rewrite Nat2Z.inj_succ, Qc_of_Z_succ. ring. Qed.

Lemma fifty_steps_pass_the_end (n : nat) :
  (50 <= n)%nat -> 1 < 0.02 + Qc_of_Z (Z.of_nat n) * 0.02.
Proof.
  intros H. unfold Qclt. rewrite this_plus, this_mult, !this_Q2Qc.
  change (this (Qc_of_Z (Z.of_nat n))) with (inject_Z (Z.of_nat n)).
  assert (inject_Z 50 <= inject_Z (Z.of_nat n))%Q as H'
    by (rewrite <- Zle_Qle; lia).
  change (inject_Z 50) with 50%Q in H'. lra.
Qed.

(** When every pending transition is at progress [b] at least, no
    transition is pending after so many display refreshes that [b] and
    their steps of 0.02 add up to more than 1. *)
Lemma frames_drain_transitions (nows : list Z) (w : World) (b : Qc) :
  Forall (fun t => b ≤ progress t /\ progress t ≤ 1)
         (pending_transitions w) ->
  1 < b + Qc_of_Z (Z.of_nat (length nows)) * 0.02 ->
  pending_transitions (foldl (fun w now => frame now w) w nows) = [].
Proof.
  revert w b. induction nows as [|now nows IH]; intros w b Hq Hb.
  - simpl in *. destruct (pending_transitions w) as [|t ts]; [done|].
    apply list.Forall_cons in Hq as [[H1 H2] _].
    change (Z.of_nat 0) with 0%Z in Hb. rewrite Qc_of_Z_0 in Hb.
    exfalso. to_fractions. lra.
  - change (foldl (fun w now => frame now w) w (now :: nows))
      with (foldl (fun w now => frame now w) (frame now w) nows).
    apply (IH (frame now w) (b + 0.02)).
    + rewrite frame_pending_transitions. apply list.Forall_forall.
      intros t' Ht'. apply list_elem_of_omap in Ht' as (t & Ht & Hn).
      destruct (proj1 (list.Forall_forall _ _) Hq t Ht) as [H1 H2].
      unfold next_transition in Hn. case_bool_decide as Hle; [|done].
      injection Hn as <-. simpl. split; [|done]. to_fractions. lra.
    + simpl length in Hb. rewrite Qc_of_Z_nat_succ in Hb.
      to_fractions. lra.
Qed.

(** A queue with one call of [animate] and no transition is that call. *)
Lemma queue_only_animate (q : list Callback) :
  filter (.= CbAnimate) q = [CbAnimate] -> omap transition_of q = [] ->
  q = [CbAnimate].
Proof.
  intros Hf Ho.
  assert (filter (.= CbAnimate) q = q) as Hq.
  { clear Hf. induction q as [|cb q IH]; [done|].
    destruct cb as [t|]; [done|].
    rewrite filter_cons_True by done. f_equal. by apply IH. }
  by rewrite <- Hq.
Qed.

Lemma transitions_since_first_step (w : World) :
  camera_invariant w ->
  Forall (fun t => 0.02 ≤ progress t /\ progress t ≤ 1)
         (pending_transitions w).
Proof.
  intros [_ H]. eapply list.Forall_impl; [exact H|].
  by intros t (_ & _ & ? & ?).
Qed.

Lemma frames_invariant (nows : list Z) (w : World) :
  scene_invariant w -> one_animate_pending w ->
  scene_invariant (foldl (fun w now => frame now w) w nows)
  /\ one_animate_pending (foldl (fun w now => frame now w) w nows).
Proof.
  revert w. induction nows as [|now nows IH]; intros w Hs Hp; [done|].
  apply IH; [by apply frame_invariant|by apply frame_pending].
Qed.

(** X9.  From any state of the page, fifty display refreshes or more,
    with no other event in between, are handled normally and leave no
    camera transition pending: the call of [animate] is the only callback
    registered, and further refreshes leave the camera where it is. *)
Theorem transitions_end_within_fifty_refreshes (nows : list Z) (w : World) :
  reachable w -> (50 <= length nows)%nat ->
  exists w', run (Frame <$> nows) w = Normal w'
    /\ frameCallbacks w' = [CbAnimate]
    /\ (forall now, camera (frame now w') = camera w'
                    /\ frameCallbacks (frame now w') = [CbAnimate]).
Proof.
  intros Hr Hlen. eexists. split; [apply run_frames|].
  destruct (reachable_invariant w Hr) as [Hscene Hpend].
  destruct (frames_invariant nows w Hscene Hpend) as [_ Hpend'].
  pose proof (frames_drain_transitions nows w 0.02
                (transitions_since_first_step w
                   (reachable_camera_invariant w Hr))
                (fifty_steps_pass_the_end _ Hlen)) as Hdrain.
  set (w' := foldl (fun w now => frame now w) w nows) in *.
  assert (frameCallbacks w' = [CbAnimate]) as Hq
    by (by apply queue_only_animate).
  split; [exact Hq|]. intros now. unfold frame. rewrite Hq.
  change (foldl (fun w cb => runCallback now cb w) (set_frameCallbacks w' [])
                [CbAnimate])
    with (animate now (set_frameCallbacks w' [])).
  by rewrite animate_camera, animate_frameCallbacks.
Qed.

(** ** Teardown *)

Lemma cancel_last_animate_transitions (q : list Callback) :
  omap transition_of (cancel_last_animate q) = omap transition_of q.
Proof.
  induction q as [|cb q IH]; [done|].
  destruct cb as [t|].
  - change (cancel_last_animate (CbAnimateCamera t :: q))
      with (CbAnimateCamera t :: cancel_last_animate q).
    change (omap transition_of (CbAnimateCamera t :: cancel_last_animate q))
      with (t :: omap transition_of (cancel_last_animate q)).
    by rewrite IH.
  - change (cancel_last_animate (CbAnimate :: q))
      with (if bool_decide (CbAnimate ∉ q) then q
            else CbAnimate :: cancel_last_animate q).
    case_bool_decide; [done|exact IH].
Qed.

Lemma cancel_last_animate_one (q : list Callback) :
  filter (.= CbAnimate) q = [CbAnimate] ->
  CbAnimate ∉ cancel_last_animate q.
Proof.
  induction q as [|cb q IH]; [intros _; apply not_elem_of_nil|].
  destruct cb as [t|]; simpl.
  - rewrite filter_cons_False by done. intros H.
    apply not_elem_of_cons. split; [done|by apply IH].
  - rewrite filter_cons_True by done. intros [= H].
    assert (CbAnimate ∉ q) as Hq.
    { intros Hin. assert (CbAnimate ∈ filter (.= CbAnimate) q) as Hin'
        by (by apply list_elem_of_filter).
      rewrite H in Hin'. by apply elem_of_nil in Hin'. }
    by rewrite !bool_decide_eq_true_2.
Qed.

(** Without a pending call of [animate], the callbacks of a display refresh
    write the camera and nothing else. *)
Lemma callbacks_without_animate (now : Z) (q : list Callback) (w : World) :
  CbAnimate ∉ q -> CbAnimate ∉ frameCallbacks w ->
  rendered (foldl (fun w cb => runCallback now cb w) w q) = rendered w
  /\ navigationObjects (foldl (fun w cb => runCallback now cb w) w q)
     = navigationObjects w
  /\ decor (foldl (fun w cb => runCallback now cb w) w q) = decor w
  /\ CbAnimate ∉ frameCallbacks (foldl (fun w cb => runCallback now cb w) w q).
Proof.
  revert w. induction q as [|cb q IH]; intros w Hq Hw; [done|].
  apply not_elem_of_cons in Hq as [Hcb Hq].
  destruct cb as [t|]; [|done].
  change (foldl (fun w cb => runCallback now cb w) w (CbAnimateCamera t :: q))
    with (foldl (fun w cb => runCallback now cb w) (animateCamera t w) q).
  destruct (IH (animateCamera t w)) as (-> & -> & -> & H); [done| |].
  - unfold animateCamera. destruct (bool_decide _); [|done]. simpl.
    apply not_elem_of_app. split; [done|].
    apply not_elem_of_cons. split; [done|apply not_elem_of_nil].
  - rewrite animateCamera_decor.
    by destruct (animateCamera_frame t w) as (-> & _ & _ & _ & _ & _ & ->).
Qed.

Lemma frames_without_animate (nows : list Z) (w : World) :
  CbAnimate ∉ frameCallbacks w ->
  rendered (foldl (fun w now => frame now w) w nows) = rendered w
  /\ navigationObjects (foldl (fun w now => frame now w) w nows)
     = navigationObjects w
  /\ decor (foldl (fun w now => frame now w) w nows) = decor w
  /\ CbAnimate ∉ frameCallbacks (foldl (fun w now => frame now w) w nows).
Proof.
  revert w. induction nows as [|now nows IH]; intros w Hw; [done|].
  change (foldl (fun w now => frame now w) w (now :: nows))
    with (foldl (fun w now => frame now w) (frame now w) nows).
  destruct (callbacks_without_animate now (frameCallbacks w)
              (set_frameCallbacks w [])) as (Hr & Hn & Hd & Hc);
    [done|apply not_elem_of_nil|].
  destruct (IH (frame now w)) as (-> & -> & -> & H); [exact Hc|].
  done.
Qed.

Lemma queue_without_animate (q : list Callback) :
  CbAnimate ∉ q -> omap transition_of q = [] -> q = [].
Proof.
  destruct q as [|[t|] q]; [done|done|].
  intros H. destruct H. by left.
Qed.

(** X12.  After the cleanup of the scene, run in any state of the page,
    the loop of [animate] is no longer registered, but the callbacks of the
    pending camera transitions all are.  Display refreshes after the cleanup
    render nothing and leave the meshes, the particles and the lights as
    they are; after fifty of them no callback is registered at all. *)
Theorem cleanup_stops_the_frame_loop (nows : list Z) (w : World) :
  reachable w ->
  (CbAnimate ∉ frameCallbacks (cleanup w))
  /\ pending_transitions (cleanup w) = pending_transitions w
  /\ rendered (foldl (fun w now => frame now w) (cleanup w) nows)
     = rendered w
  /\ navigationObjects (foldl (fun w now => frame now w) (cleanup w) nows)
     = navigationObjects w
  /\ decor (foldl (fun w now => frame now w) (cleanup w) nows) = decor w
  /\ ((50 <= length nows)%nat ->
      frameCallbacks (foldl (fun w now => frame now w) (cleanup w) nows)
      = []).
Proof.
  intros Hr. destruct (reachable_invariant w Hr) as [_ Hpend].
  assert (CbAnimate ∉ frameCallbacks (cleanup w)) as Hno
    by (by apply cancel_last_animate_one).
  assert (pending_transitions (cleanup w) = pending_transitions w) as Hsame
    by apply cancel_last_animate_transitions.
  destruct (frames_without_animate nows (cleanup w) Hno)
    as (Hrend & Hobj & Hdecor & Hno').
  split; [exact Hno|]. split; [exact Hsame|].
  split; [exact Hrend|]. split; [exact Hobj|]. split; [exact Hdecor|].
  intros Hlen. apply queue_without_animate; [exact Hno'|].
  apply (frames_drain_transitions nows (cleanup w) 0.02).
  - rewrite Hsame.
    by apply transitions_since_first_step, reachable_camera_invariant.
  - by apply fifty_steps_pass_the_end.
Qed.

(** ** Project cards *)


(** ** Particle field *)


(** ** The camera follows the transition started last *)

Lemma omap_next_transition_past_end (l : list Transition) (p : Qc) :
  1 < p + 0.02 -> Forall (fun u => p ≤ progress u) l ->
  omap next_transition l = [].
Proof.
  intros Hp. induction l as [|u l IH]; intros Hl; [done|].
  apply list.Forall_cons in Hl as [Hu Hl]. simpl.
  unfold next_transition at 1. rewrite bool_decide_eq_false_2.
  - by apply IH.
  - intros Hle. to_fractions. lra.
Qed.

(** The newest of the transitions left after a display refresh is the
    newest before it, one step on, when that one has a step left; when it
    has none, no transition is left. *)
Lemma last_omap_next_transition (l : list Transition) (t : Transition) :
  list.last l = Some t -> Forall (fun u => progress t ≤ progress u) l ->
  list.last (omap next_transition l) = next_transition t.
Proof.
  intros Hlast Hl. apply last_Some in Hlast as [l' ->].
  rewrite omap_app. simpl.
  destruct (next_transition t) as [t'|] eqn:E; simpl.
  - by rewrite last_snoc.
  - unfold next_transition in E. case_bool_decide as Hle; [done|].
    apply list.Forall_app in Hl as [Hl' _].
    rewrite (omap_next_transition_past_end l' (progress t)); [done| |done].
    by apply Qcnot_le_lt.
Qed.

(** The camera after the callbacks of a display refresh is the one written
    by the newest transition, when that one has a step left. *)
Lemma callbacks_camera_newest (now : Z) (q : list Callback) (w : World)
    (t : Transition) :
  list.last (omap transition_of q) = Some t -> progress t + 0.02 ≤ 1 ->
  cam_position (camera (foldl (fun w cb => runCallback now cb w) w q)) =
    lerpVectors (startPosition t) (targetPosition t)
                (easing (progress t + 0.02))
  /\ cam_lookAt (camera (foldl (fun w cb => runCallback now cb w) w q)) =
       Some (cfg_target (targetConfig t)).
Proof.
  intros Hlast Hp. induction q as [|cb q IH] using rev_ind; [done|].
  rewrite foldl_app.
  set (w1 := foldl (fun w cb => runCallback now cb w) w q) in *.
  rewrite omap_app in Hlast. destruct cb as [t0|]; simpl in Hlast.
  - rewrite last_snoc in Hlast. injection Hlast as ->.
    change (foldl (fun w cb => runCallback now cb w) w1 [CbAnimateCamera t])
      with (animateCamera t w1).
    by rewrite animateCamera_running.
  - rewrite app_nil_r in Hlast.
    change (foldl (fun w cb => runCallback now cb w) w1 [CbAnimate])
      with (animate now w1).
    rewrite animate_camera. by apply IH.
Qed.

Lemma frame_newest_transition (now : Z) (w : World) :
  newest_transition_invariant w ->
  newest_transition_invariant (frame now w).
Proof.
  intros H t' Hlast. unfold newest_transition in *.
  rewrite frame_pending_transitions in *.
  destruct (list.last (pending_transitions w)) as [t|] eqn:E.
  - destruct (H t E) as ((_ & _ & Hres & Htarget) & Hall).
    rewrite (last_omap_next_transition _ t E Hall) in Hlast.
    unfold next_transition in Hlast. case_bool_decide as Hle; [|done].
    injection Hlast as <-.
    destruct (callbacks_camera_newest now (frameCallbacks w)
                (set_frameCallbacks w []) t E Hle) as [Hpos Hlook].
    split.
    + split; [exact Hpos|]. split; [exact Hlook|].
      split; [by rewrite frame_currentSection|exact Htarget].
    + apply list.Forall_forall. intros u' Hu'.
      apply list_elem_of_omap in Hu' as (u & Hu & Hn).
      pose proof (proj1 (list.Forall_forall _ _) Hall u Hu) as Hge.
      unfold next_transition in Hn. case_bool_decide; [|done].
      injection Hn as <-. simpl in *. to_fractions. lra.
  - apply last_None in E. rewrite E in Hlast. done.
Qed.

Lemma cameraEffect_newest_transition (w w' : World) :
  currentSection w ∈ navItems -> camera_invariant w ->
  cameraEffect w = Normal w' -> newest_transition_invariant w'.
Proof.
  intros Hs [_ Hq] H.
  destruct (cameraEffect_navItem w Hs) as (c & Hres & He).
  rewrite He in H. injection H as <-.
  assert (0 + 0.02 ≤ 1) as Hle by by_evaluation.
  intros t Hlast. unfold newest_transition in Hlast.
  rewrite animateCamera_pending_transitions in *.
  unfold next_transition in *. simpl progress in *.
  rewrite bool_decide_eq_true_2 in * by done. simpl option_list in *.
  rewrite last_snoc in Hlast. injection Hlast as <-.
  split.
  - unfold follows. rewrite animateCamera_running by done. simpl.
    by rewrite Hres.
  - apply list.Forall_app. split.
    + eapply list.Forall_impl; [exact Hq|].
      intros u (_ & _ & Hu & _). simpl. to_fractions. lra.
    + apply list.Forall_singleton. simpl. apply Qcle_refl.
Qed.

Lemma handleNavigation_newest_transition (s : string) (w w' : World) :
  s ∈ navItems -> camera_invariant w -> newest_transition_invariant w ->
  handleNavigation s w = Normal w' -> newest_transition_invariant w'.
Proof.
  intros Hs Hcam Hinv. unfold handleNavigation, setCurrentSection, rerender.
  destruct (String.eqb s (currentSection w)) eqn:E; [by intros [= <-]|].
  simpl currentSection. rewrite String.eqb_sym, E.
  by apply cameraEffect_newest_transition.
Qed.

Lemma click_newest_transition (w w' : World) :
  scene_invariant w -> camera_invariant w -> newest_transition_invariant w ->
  click w = Normal w' -> newest_transition_invariant w'.
Proof.
  intros Hscene Hcam Hinv H. pose proof (click_outcome w Hscene) as Ho.
  destruct (intersectObjects _ _ _) as [|hit rest].
  - rewrite Ho in H. by injection H as <-.
  - destruct Ho as (m & _ & Hsec & Hc). rewrite Hc in H.
    eapply handleNavigation_newest_transition; [|done|done|exact H].
    by apply object_sections_navItems.
Qed.

Lemma reachable_newest_transition (w : World) :
  reachable w -> newest_transition_invariant w.
Proof.
  revert w. apply reachable_induction.
  - intros iw ih now w. unfold mount.
    destruct (cameraEffect _) as [w0|] eqn:E; [|done]. intros [= <-].
    assert (newest_transition_invariant w0) as H0.
    { apply (cameraEffect_newest_transition (initial_World iw ih));
        [by left| |done].
      split; [by_evaluation|constructor]. }
    intros t Ht. unfold newest_transition, follows in *.
    rewrite animate_pending_transitions, animate_camera,
      animate_currentSection in *.
    by apply H0.
  - intros e w w' Hr IH Hs.
    destruct (reachable_invariant w Hr) as [Hscene Hpend].
    pose proof (reachable_camera_invariant w Hr) as Hcam.
    destruct e as [now|cx cy iw ih| |item|iw ih]; simpl in Hs.
    + injection Hs as <-. by apply frame_newest_transition.
    + by injection Hs as <-.
    + by apply (click_newest_transition w).
    + unfold dockClick in Hs.
      destruct (navItems !! item) as [id|] eqn:Eid;
        [|by injection Hs as <-].
      assert (id ∈ navItems) as Hid by (by eapply list_elem_of_lookup_2).
      destruct (handleNavigation_navItem id w) as (w1 & E & Hscene1 & _);
        [done|done|done|].
      rewrite E in Hs.
      apply (click_newest_transition w1); [done| | |exact Hs].
      * by eapply handleNavigation_camera_invariant.
      * by eapply handleNavigation_newest_transition.
    + by injection Hs as <-.
Qed.

Lemma navItems_lookup (s : string) (c : CameraConfig) :
  s ∈ navItems -> resolve_targetConfig s = JSConfig c ->
  CAMERA_POSITIONS !! s = Some c.
Proof.
  unfold navItems. rewrite !elem_of_cons, elem_of_nil. intros H.
  repeat (destruct H as [-> | H];
          [vm_compute; intros [= <-]; by_evaluation|]).
  destruct H.
Qed.

(** X15.  Between events the camera is where the transition started last
    put it: at the interpolation of that transition's start and destination
    at its eased progress, looking at that transition's target.  That
    transition heads for the pose of the current section.  The positions
    written by older transitions, which are still pending, are overwritten
    within the display refresh in which they are written. *)
Theorem camera_follows_newest_transition (w : World) (t : Transition) :
  reachable w -> newest_transition w = Some t ->
  cam_position (camera w) =
    lerpVectors (startPosition t) (targetPosition t) (easing (progress t))
  /\ cam_lookAt (camera w) = Some (cfg_target (targetConfig t))
  /\ CAMERA_POSITIONS !! currentSection w = Some (targetConfig t)
  /\ targetPosition t = cfg_position (targetConfig t)
  /\ Forall (fun u => progress t ≤ progress u) (pending_transitions w).
Proof.
  intros Hr Ht.
  destruct (reachable_newest_transition w Hr t Ht)
    as ((Hpos & Hlook & Hres & Htarget) & Hall).
  destruct (reachable_invariant w Hr) as [(_ & _ & _ & _ & Hs) _].
  split; [exact Hpos|]. split; [exact Hlook|].
  split; [by apply navItems_lookup|]. split; [exact Htarget|exact Hall].
Qed.

(** ** A mesh away from the pointer returns to its rest scale *)










(** ** The hue of a particle *)

Lemma Qfloor_unit (q : Q) : (0 <= q)%Q -> (q < 1)%Q -> Qfloor q = 0%Z.
Proof.
  intros H0 H1.
  pose proof (Qfloor_le q) as Hlo. pose proof (Qlt_floor q) as Hhi.
  assert (Qfloor q < 1)%Z.
  { rewrite Zlt_Qlt. eapply Qle_lt_trans; [exact Hlo|exact H1]. }
  assert (-1 < Qfloor q)%Z.
  { rewrite Zlt_Qlt. rewrite inject_Z_plus in Hhi.
    change (inject_Z (-1)) with (-1)%Q. change (inject_Z 1) with 1%Q in Hhi.
    lra. }
  lia.
Qed.

(** X17.  The hue of a particle is [r * 0.3 + 0.5] for the number [r]
    drawn, at least 0.5 and below 0.8: the remainder by 1 of line 159 never
    changes its operand, so the hues never wrap around and range from cyan
    to violet. *)
Theorem particle_hue_never_wraps (r : Qc) :
  0 ≤ r -> r < 1 ->
  particle_hue r = r * 0.3 + 0.5
  /\ 0.5 ≤ particle_hue r /\ particle_hue r < 0.8.
Proof.
  intros H0 H1.
  assert (0.5 ≤ r * 0.3 + 0.5 /\ r * 0.3 + 0.5 < 0.8) as [Hlo Hhi]
    by (to_fractions; split; lra).
  assert (particle_hue r = r * 0.3 + 0.5) as ->; [|done].
  unfold particle_hue, js_rem, Math_trunc.
  assert (/ 1 = 1) as Hinv by by_evaluation.
  unfold Qcdiv. rewrite Hinv, Qcmult_1_r.
  rewrite bool_decide_eq_true_2 by (to_fractions; lra).
  rewrite Qfloor_unit.
  - assert (Qc_of_Z 0 = 0) as -> by by_evaluation. ring.
  - to_fractions. lra.
  - to_fractions. lra.
Qed.

End Properties.

(** * The model at work *)

Example resolve_about : resolve_targetConfig "about" = JSConfig about_pose.
Proof. vm_compute. reflexivity. Qed.

Example resolve_unknown : resolve_targetConfig "blog" = JSConfig home_pose.
Proof. vm_compute. reflexivity. Qed.

Example nine_navigable_objects : length build_navigationObjects = 9%nat.
Proof. reflexivity. Qed.

Lemma sample_mount_normal : sample_mount = Normal sample_world.
Proof. vm_compute. reflexivity. Qed.

Lemma sample_world_reachable :
  reachable sample_sin sample_cos ray_through_cube_and_core sample_world.
Proof.
  exists 16, 9, 1000%Z, []. fold sample_mount. by rewrite sample_mount_normal.
Qed.

(** The cube labelled "hardware" hides the core: a click goes to skills. *)
Example click_on_cube :
  exists w', click ray_through_cube_and_core sample_world = Normal w'
    /\ currentSection w' = "skills"
    /\ mountedPanels w' = [SkillsMatrix; HeroSection].
Proof. eexists. split; [vm_compute; reflexivity|]. by split. Qed.

Example click_on_nothing (w : World) : click ray_misses w = Normal w.
Proof.
  unfold click, handleClick.
  assert (intersectObjects ray_misses (mouse w) (camera w)
            (navigationObjects w) = []) as ->; [|done].
  apply Array_sort_nil, join_nil, list.Forall_forall. intros l Hl.
  by apply elem_of_lookup_imap in Hl as (i & m & -> & _).
Qed.

(** ** Instances of the theorems *)

Lemma animateCamera_eased_interpolation_witness :
  let t := mkTransition about_pose (cfg_position home_pose)
                        (cfg_position about_pose) 0.48 in
  let w := initial_World 16 9 in
  (0 < progress t + 0.02 /\ progress t + 0.02 < 1
   /\ startPosition t <> targetPosition t)
  /\ strictly_between (startPosition t) (targetPosition t)
       (cam_position (camera (animateCamera t w))).
Proof.
  intros t w.
  assert (0 < progress t + 0.02) as H0 by by_evaluation.
  assert (progress t + 0.02 < 1) as H1 by by_evaluation.
  assert (startPosition t <> targetPosition t) as Hne by by_evaluation.
  split; [done|].
  apply (animateCamera_eased_interpolation t w H0 H1 Hne).
Defined.

Lemma handleNavigation_same_section_witness :
  currentSection sample_world = "home"
  /\ handleNavigation "home" sample_world = Normal sample_world.
Proof.
  assert (currentSection sample_world = "home") as H
    by (vm_compute; reflexivity).
  split; [exact H|].
  apply (handleNavigation_same_section "home" sample_world H).
Defined.

Lemma click_sets_section_of_first_hit_witness :
  reachable sample_sin sample_cos ray_through_cube_and_core sample_world
  /\ match intersectObjects ray_through_cube_and_core (mouse sample_world)
             (camera sample_world) (navigationObjects sample_world) with
     | [] => click ray_through_cube_and_core sample_world = Normal sample_world
     | hit :: _ =>
         exists m w', navigationObjects sample_world !! object hit = Some m
           /\ click ray_through_cube_and_core sample_world = Normal w'
           /\ currentSection w' = section (userData m)
     end.
Proof.
  split; [exact sample_world_reachable|].
  apply (click_sets_section_of_first_hit sample_sin sample_cos
           ray_through_cube_and_core sample_world sample_world_reachable).
Defined.


Lemma decor_function_of_time_witness :
  reachable sample_sin sample_cos ray_through_cube_and_core sample_world
  /\ decor (frame sample_sin sample_cos ray_through_cube_and_core 2000
                  sample_world)
     = decor_at sample_sin sample_cos 2000.
Proof.
  split; [exact sample_world_reachable|].
  exact (proj1 (decor_function_of_time sample_sin sample_cos
                  ray_through_cube_and_core 2000 sample_world
                  sample_world_reachable)).
Defined.


(** ** A second request while a transition is in flight *)


(** A request made before the transition of the mount has ended is not
    shown at all: the callback of the mount transition runs before the
    render of every refresh and puts the camera back on the home pose, so
    all 50 renders so far are taken from there while the camera itself
    reaches the pose of about; the next render is taken from about. *)
Lemma early_request_is_not_rendered :
  exists w w',
    early_request 49 = Normal w
    /\ cam_position (camera w) = cfg_position about_pose
    /\ length (rendered w) = 50%nat
    /\ Forall (fun c => cam_position c = cfg_position home_pose) (rendered w)
    /\ early_request 50 = Normal w'
    /\ cam_position <$> head (rendered w') = Some (cfg_position about_pose).
Proof.
  do 2 eexists.
  split; [vm_compute; reflexivity|].
  split; [by_evaluation|]. split; [vm_compute; reflexivity|].
  split; [by_evaluation|].
  split; [vm_compute; reflexivity|]. by_evaluation.
Qed.

(** ** Hovering *)

(** C6.  The pointer rests on the core.  The call of [animate] at the mount
    brings the scale of the core from 1 to 1.02.  At the next refresh,
    smoothing toward 1.2 with factor 0.1 would give 1.038; the core gets
    1.0362, since it is first moved toward 1 with every other mesh.  Its
    scale stays below 1.106 however long the pointer rests. *)
Theorem hovered_scale_is_smoothed_twice :
  core_scale (hovering_core 0) = Some (mkVector3 1.02 1.02 1.02)
  /\ (exists w, hovering_core 0 = Normal w
        /\ first_hit_is (hover_intersects sample_sin ray_through_core 16 w)
                        core = true)
  /\ lerp (mkVector3 1.02 1.02 1.02) (mkVector3 1.2 1.2 1.2) 0.1
     = mkVector3 1.038 1.038 1.038
  /\ core_scale (hovering_core 1) = Some (mkVector3 1.0362 1.0362 1.0362)
  /\ (exists s, core_scale (hovering_core 40) = Some s /\ vx s < 1.106).
Proof.
  split; [by_evaluation|].
  split; [eexists; split; vm_compute; reflexivity|].
  split; [by_evaluation|]. split; [by_evaluation|].
  eexists. split; [vm_compute; reflexivity|]. by_evaluation.
Qed.

(** ** Instances of the further properties *)

Lemma sample_events_normal :
  run sample_sin sample_cos ray_through_cube_and_core sample_events
      sample_world = Normal sample_later_world.
Proof. vm_compute. reflexivity. Qed.

Lemma sample_later_world_reachable :
  reachable sample_sin sample_cos ray_through_cube_and_core
            sample_later_world.
Proof.
  exact (reachable_run sample_sin sample_cos ray_through_cube_and_core
           sample_events sample_world sample_later_world
           sample_world_reachable sample_events_normal).
Qed.

Lemma cameraEffect_falls_back_to_home_witness :
  (currentSection (set_currentSection sample_world "blog")
     ∉ Object_prototype)
  /\ exists w',
       cameraEffect (set_currentSection sample_world "blog") = Normal w'
       /\ cam_lookAt (camera w') = Some (cfg_target home_pose).
Proof.
  assert (currentSection (set_currentSection sample_world "blog")
            ∉ Object_prototype) as H by by_evaluation.
  split; [exact H|].
  destruct (cameraEffect_falls_back_to_home
              (set_currentSection sample_world "blog") H)
    as (w' & He & _ & Hl & _).
  exists w'. split; [exact He|exact Hl].
Defined.

Lemma pointer_is_normalised_witness :
  (0 < 1920 /\ 0 < 1080 /\ 0 ≤ 480 /\ 480 ≤ 1920 /\ 0 ≤ 270 /\ 270 ≤ 1080)
  /\ -1 ≤ x2 (mouse (handleMouseMove 480 270 1920 1080 sample_world))
  /\ x2 (mouse (handleMouseMove 480 270 1920 1080 sample_world)) ≤ 1.
Proof.
  assert (0 < 1920) as Hw by by_evaluation.
  assert (0 < 1080) as Hh by by_evaluation.
  assert (0 ≤ 480) as Hx0 by by_evaluation.
  assert (480 ≤ 1920) as Hx1 by by_evaluation.
  assert (0 ≤ 270) as Hy0 by by_evaluation.
  assert (270 ≤ 1080) as Hy1 by by_evaluation.
  split; [done|].
  exact (proj1 (pointer_is_normalised 480 270 1920 1080 sample_world
                  Hw Hh Hx0 Hx1 Hy0 Hy1)).
Defined.

Lemma events_never_throw_witness :
  reachable sample_sin sample_cos ray_through_cube_and_core sample_world
  /\ exists w',
       run sample_sin sample_cos ray_through_cube_and_core sample_events
           sample_world = Normal w'
       /\ reachable sample_sin sample_cos ray_through_cube_and_core w'.
Proof.
  split; [exact sample_world_reachable|].
  exact (events_never_throw sample_sin sample_cos ray_through_cube_and_core
           sample_events sample_world sample_world_reachable).
Defined.

Lemma one_render_per_refresh_witness :
  reachable sample_sin sample_cos ray_through_cube_and_core
            sample_later_world
  /\ exists cam,
       rendered (frame sample_sin sample_cos ray_through_cube_and_core 1066
                       sample_later_world)
       = cam :: rendered sample_later_world.
Proof.
  split; [exact sample_later_world_reachable|].
  exact (proj1 (proj2 (one_render_per_refresh sample_sin sample_cos
                         ray_through_cube_and_core 1066 sample_later_world
                         sample_later_world_reachable))).
Defined.


Lemma scale_stays_uniform_and_bounded_witness :
  reachable sample_sin sample_cos ray_through_cube_and_core
            sample_later_world
  /\ Forall (uniform_scale 1 (Q2Qc (21 # 19)))
            (navigationObjects sample_later_world).
Proof.
  split; [exact sample_later_world_reachable|].
  exact (proj1 (scale_stays_uniform_and_bounded sample_sin sample_cos
                  ray_through_cube_and_core sample_later_world
                  sample_later_world_reachable)).
Defined.

Lemma panel_matches_section_witness :
  reachable sample_sin sample_cos ray_through_cube_and_core
            sample_later_world
  /\ head (mountedPanels sample_later_world)
     = Some (renderSection (currentSection sample_later_world)).
Proof.
  split; [exact sample_later_world_reachable|].
  exact (proj1 (proj2 (panel_matches_section sample_sin sample_cos
                         ray_through_cube_and_core sample_later_world
                         sample_later_world_reachable))).
Defined.

Lemma camera_stays_in_pose_box_witness :
  reachable sample_sin sample_cos ray_through_cube_and_core
            sample_later_world
  /\ 8 ≤ vz (cam_position (camera sample_later_world)).
Proof.
  split; [exact sample_later_world_reachable|].
  exact (proj1 (proj2 (proj2 (camera_stays_in_pose_box sample_sin sample_cos
                                ray_through_cube_and_core sample_later_world
                                sample_later_world_reachable)))).
Defined.

Lemma transitions_end_within_fifty_refreshes_witness :
  (reachable sample_sin sample_cos ray_through_cube_and_core
             sample_later_world
   /\ (50 <= length (replicate 50 1066%Z))%nat)
  /\ exists w',
       run sample_sin sample_cos ray_through_cube_and_core
           (Frame <$> replicate 50 1066%Z) sample_later_world = Normal w'
       /\ frameCallbacks w' = [CbAnimate].
Proof.
  assert (50 <= length (replicate 50 1066%Z))%nat as Hlen
    by (vm_compute; lia).
  split; [split; [exact sample_later_world_reachable|exact Hlen]|].
  destruct (transitions_end_within_fifty_refreshes sample_sin sample_cos
              ray_through_cube_and_core (replicate 50 1066%Z)
              sample_later_world sample_later_world_reachable Hlen)
    as (w' & Hrun & Hq & _).
  exists w'. split; [exact Hrun|exact Hq].
Defined.

Lemma pointer_and_aspect_have_one_writer_witness :
  run sample_sin sample_cos ray_through_cube_and_core sample_events
      sample_world = Normal sample_later_world
  /\ cam_aspect (camera sample_later_world)
     = aspect_after sample_events (cam_aspect (camera sample_world))
  /\ mouse sample_later_world
     = pointer_after sample_events (mouse sample_world).
Proof.
  split; [exact sample_events_normal|].
  exact (pointer_and_aspect_have_one_writer sample_sin sample_cos
           ray_through_cube_and_core sample_events sample_world
           sample_later_world sample_events_normal).
Defined.


Lemma cleanup_stops_the_frame_loop_witness :
  reachable sample_sin sample_cos ray_through_cube_and_core
            sample_later_world
  /\ rendered (foldl (fun w now =>
                        frame sample_sin sample_cos
                              ray_through_cube_and_core now w)
                     (cleanup sample_later_world) [1066%Z; 1083%Z])
     = rendered sample_later_world.
Proof.
  split; [exact sample_later_world_reachable|].
  exact (proj1 (proj2 (proj2
           (cleanup_stops_the_frame_loop sample_sin sample_cos
              ray_through_cube_and_core [1066%Z; 1083%Z] sample_later_world
              sample_later_world_reachable)))).
Defined.


(** The pointer is over the cube throughout the sample run, so the click
    on the dock button "contact" is followed by a pick of the cube and the
    run ends in the skills section. *)
Example sample_later_world_section :
  currentSection sample_later_world = "skills".
Proof. vm_compute. reflexivity. Qed.

Lemma camera_follows_newest_transition_witness :
  (reachable sample_sin sample_cos ray_through_cube_and_core
             sample_later_world
   /\ newest_transition sample_later_world = Some sample_transition)
  /\ cam_lookAt (camera sample_later_world)
     = Some (cfg_target (targetConfig sample_transition))
  /\ CAMERA_POSITIONS !! currentSection sample_later_world
     = Some (targetConfig sample_transition).
Proof.
  assert (newest_transition sample_later_world = Some sample_transition)
    as Ht by by_evaluation.
  split; [split; [exact sample_later_world_reachable|exact Ht]|].
  destruct (camera_follows_newest_transition sample_sin sample_cos
              ray_through_cube_and_core sample_later_world sample_transition
              sample_later_world_reachable Ht) as (_ & Hl & Hc & _).
  split; [exact Hl|exact Hc].
Defined.


(** The sample run ends while the camera is on its way to the pose of the
    skills section. *)
Example sample_transition_target :
  targetConfig sample_transition = skills_pose.
Proof. by_evaluation. Qed.

Lemma particle_hue_never_wraps_witness :
  (0 ≤ 0.5 /\ 0.5 < 1) /\ particle_hue 0.5 = 0.5 * 0.3 + 0.5.
Proof.
  assert (0 ≤ 0.5) as H0 by by_evaluation.
  assert (0.5 < 1) as H1 by by_evaluation.
  split; [exact (conj H0 H1)|].
  exact (proj1 (particle_hue_never_wraps 0.5 H0 H1)).
Defined.
